(** * Repository synchronization: sync strategies, metrics, scheduler

    A shallow embedding of the Go sources of the repository-update service:

    - [MavenArtifactSyncer] (package [server]): the artifact-derived sync
      strategy.  Its methods talk to the outside world (the package
      registry, [git], [unzip], the file system), so they are embedded as
      programs over an effect signature and run against an environment.
    - [MustRegisterMetrics] and the counters of package [repos].
    - The scheduler core, the job store, the backoff policy and the purge
      worker, which the design document describes. *)

From stdpp Require Import gmap strings list fin_maps.
From Stdlib Require Import ZArith NArith Floats Uint63 Lia.

Local Open Scope string_scope.
Local Open Scope list_scope.

(** ** Go values *)

(** [[]byte] and [string] are both sequences of bytes. *)
Definition bytes : Type := string.

(** The one-character string holding a double quote (U+0022). *)
Definition dquote : string := String (Ascii.ascii_of_nat 34) EmptyString.

(** Go [error] values.  [nil] is [None] in [option error].  The format
    string and its arguments are kept apart, as handed to
    [errors.Errorf] and [errors.Wrapf]. *)
Inductive error : Type :=
| External (msg : string)
| Errorf (format : string) (args : list string)
| Wrapf (cause : error) (format : string) (args : list string).

(** [exec.Cmd]: the fields the syncer sets or reads. *)
Record Cmd : Type := mkCmd {
  cmd_Path : string;
  cmd_Args : list string;
  cmd_Dir : string;
  cmd_Env : list string
}.

(** [vcs.URL] embeds [url.URL]. *)
Record URL : Type := mkURL {
  url_Scheme : string;
  url_Host : string;
  url_Path : string
}.

(** [type GitDir string]: the conversion [GitDir(tmpPath)] keeps the bytes. *)
Definition GitDir : Type := string.

(** An open [*os.File]. *)
Definition File : Type := nat.

(** What the sources use and the repository declares elsewhere, or the Go
    library provides: the type of contexts and of the Maven connection
    settings, [reposource.DecomposeMavenPath], [filepath.Dir], the two
    [GitDir] methods, and the JSON rendering of a Go string. *)
Class Platform : Type := {
  Context : Type;
  MavenConnection : Type;
  DecomposeMavenPath : string -> string;
  filepath_Dir : string -> string;
  GitDir_Set : GitDir -> Cmd -> Cmd;
  GitDir_Path : GitDir -> string -> string;
  json_string : string -> string
}.

(** [exec.CommandContext(ctx, name, arg...)]. *)
Definition exec_CommandContext `{Platform} (ctx : Context) (name : string)
    (arg : list string) : Cmd :=
  {| cmd_Path := name; cmd_Args := name :: arg;
     cmd_Dir := EmptyString; cmd_Env := [] |}.

(** [cmd.Dir = dir]. *)
Definition set_Dir (cmd : Cmd) (dir : string) : Cmd :=
  {| cmd_Path := cmd_Path cmd; cmd_Args := cmd_Args cmd;
     cmd_Dir := dir; cmd_Env := cmd_Env cmd |}.

(** ** Effects and programs *)

Section Programs.
Context `{Platform}.

(** The calls that leave the process.  The index is the Go result type. *)
Inductive Eff : Type -> Type :=
| log15_Info (msg : string) (ctx : list string) : Eff unit
| coursier_FetchSources (ctx : Context) (config : MavenConnection)
    (dependency : string) : Eff (list string * option error)
| runWith (ctx : Context) (cmd : Cmd) (configRemoteOpts : bool)
    (progress : option File) : Eff (bytes * option error)
| os_Create (name : string) : Eff (File * option error)
| File_Write (file : File) (b : bytes) : Eff (nat * option error)
| File_Close (file : File) : Eff (option error).

(** A program either returns or performs one call and continues with its
    result. *)
Inductive Prog (A : Type) : Type :=
| Ret (a : A)
| Vis (X : Type) (e : Eff X) (k : X -> Prog A).

#[global] Arguments Ret {A} a.
#[global] Arguments Vis {A X} e k.

Fixpoint bind {A B : Type} (p : Prog A) (f : A -> Prog B) : Prog B :=
  match p with
  | Ret a => f a
  | Vis e k => Vis e (fun x => bind (k x) f)
  end.

Definition trigger {X : Type} (e : Eff X) : Prog X := Vis e Ret.

End Programs.

#[global] Instance Prog_ret `{Platform} : MRet Prog := fun A a => Ret a.
#[global] Instance Prog_bind `{Platform} : MBind Prog := fun A B f p => bind p f.

(** ** The artifact-derived strategy *)

Record MavenArtifactSyncer `{Platform} : Type := mkSyncer {
  Config : MavenConnection
}.

Record lsifJavaJson : Type := mkLsif {
  Kind : string;
  Jvm : string;
  Dependencies : list string
}.

Section Syncer.
Context `{Platform}.

Fixpoint join_comma (l : list string) : string :=
  match l with
  | [] => EmptyString
  | [x] => x
  | x :: rest => x +:+ "," +:+ join_comma rest
  end.

(** [json.Marshal] of a [lsifJavaJson]: the fields in declaration order
    under their tags.  A [nil] slice is written [null]; the syncer always
    passes a slice literal. *)
Definition json_Marshal (v : lsifJavaJson) : bytes * option error :=
  ("{" +:+ dquote +:+ "kind" +:+ dquote +:+ ":" +:+ json_string (Kind v) +:+
   "," +:+ dquote +:+ "jvm" +:+ dquote +:+ ":" +:+ json_string (Jvm v) +:+
   "," +:+ dquote +:+ "dependencies" +:+ dquote +:+ ":[" +:+
   join_comma (json_string <$> Dependencies v) +:+ "]}",
   None).

Definition Type_ (s : MavenArtifactSyncer) : string := "maven".

Definition IsCloneable (s : MavenArtifactSyncer) (ctx : Context)
    (remoteURL : URL) : Prog (option error) :=
  let dependency := DecomposeMavenPath (url_Path remoteURL) in
  _ ← trigger (log15_Info "Maven.IsCloneable"
         ["dependency"; dependency; "url"; url_Path remoteURL]);
  '(sources, err) ← trigger (coursier_FetchSources ctx (Config s) dependency);
  match err with
  | Some e => Ret (Some e)
  | None =>
      if decide (length sources = 0)
      then Ret (Some (Errorf "no sources.jar for dependency %s" [dependency]))
      else Ret None
  end.

(** [defer file.Close()]: the file is closed when the function returns,
    whatever it returns. *)
Definition deferred_Close {A : Type} (file : File) (body : Prog A) : Prog A :=
  r ← body;
  _ ← trigger (File_Close file);
  Ret r.

Definition commitJar (s : MavenArtifactSyncer) (ctx : Context) (dir : GitDir)
    (workingDir dependency path : string) : Prog (option error) :=
  let cmd := GitDir_Set dir (exec_CommandContext ctx "unzip" [path; "-d"; workingDir]) in
  '(output, err) ← trigger (runWith ctx cmd false None);
  match err with
  | Some e => Ret (Some (Wrapf e "failed to unzip with output %q" [output]))
  | None =>
  '(file, err) ← trigger (os_Create (GitDir_Path dir "lsif-java.json"));
  match err with
  | Some e => Ret (Some e)
  | None =>
  deferred_Close file (
  let '(jsonContents, err) :=
    json_Marshal {| Kind := "maven"; Jvm := "8"; Dependencies := [dependency] |} in
  match err with
  | Some e => Ret (Some e)
  | None =>
  '(_, err) ← trigger (File_Write file jsonContents);
  match err with
  | Some e => Ret (Some e)
  | None =>
  let cmd := GitDir_Set dir (exec_CommandContext ctx "git" ["add"; "."]) in
  '(output, err) ← trigger (runWith ctx cmd false None);
  match err with
  | Some e => Ret (Some (Wrapf e "failed to git add with output %q" [output]))
  | None =>
  let cmd := GitDir_Set dir (exec_CommandContext ctx "git" ["commit"; "-m"; dependency]) in
  '(output, err) ← trigger (runWith ctx cmd false None);
  match err with
  | Some e => Ret (Some (Wrapf e "failed to git commit with output %q" [output]))
  | None => Ret None
  end end end end)
  end end.

Definition CloneCommand (s : MavenArtifactSyncer) (ctx : Context)
    (remoteURL : URL) (tmpPath : string) : Prog (option Cmd * option error) :=
  let dependency := DecomposeMavenPath (url_Path remoteURL) in
  '(paths, err) ← trigger (coursier_FetchSources ctx (Config s) dependency);
  match err with
  | Some e => Ret (None, Some e)
  | None =>
  match paths with
  | [] => Ret (None, Some (Errorf "no sources.jar for dependency %s" [dependency]))
  | path :: _ =>
  let workingDir := filepath_Dir tmpPath in
  let initCmd := set_Dir (exec_CommandContext ctx "git" ["init"]) workingDir in
  _ ← trigger (log15_Info "CloneCommand" ["tmpPath"; tmpPath; "cwd"; cmd_Dir initCmd]);
  '(output, err) ← trigger (runWith ctx initCmd false None);
  match err with
  | Some e =>
      Ret (None, Some (Wrapf e "failed to init git repository with output %q" [output]))
  | None =>
  err ← commitJar s ctx tmpPath (cmd_Dir initCmd) dependency path;
  Ret (Some (exec_CommandContext ctx "git" ["--version"]), err)
  end end end.

Definition Fetch (s : MavenArtifactSyncer) (ctx : Context) (remoteURL : URL)
    (dir : GitDir) : Prog (option error) :=
  Ret None.

Definition RemoteShowCommand (s : MavenArtifactSyncer) (ctx : Context)
    (remoteURL : URL) : Prog (option Cmd * option error) :=
  Ret (Some (exec_CommandContext ctx "git" ["remote"; "show"; "./"]), None).

End Syncer.

(** [var _ VCSSyncer = &MavenArtifactSyncer{}]: the strategy implements
    the interface of sync strategies through these five methods. *)
Class VCSSyncer `{Platform} (S : Type) : Type := {
  syncer_Type : S -> string;
  syncer_IsCloneable : S -> Context -> URL -> Prog (option error);
  syncer_CloneCommand : S -> Context -> URL -> string -> Prog (option Cmd * option error);
  syncer_Fetch : S -> Context -> URL -> GitDir -> Prog (option error);
  syncer_RemoteShowCommand : S -> Context -> URL -> Prog (option Cmd * option error)
}.

#[global] Instance MavenArtifactSyncer_VCSSyncer `{Platform} :
    VCSSyncer MavenArtifactSyncer := {|
  syncer_Type := Type_;
  syncer_IsCloneable := IsCloneable;
  syncer_CloneCommand := CloneCommand;
  syncer_Fetch := Fetch;
  syncer_RemoteShowCommand := RemoteShowCommand
|}.

(** ** Running a program against an environment *)

Section Running.
Context `{Platform}.

(** An environment answers every call and moves from one state of the
    world to the next. *)
Record Env (W : Type) : Type := mkEnv {
  handle : forall X : Type, Eff X -> W -> X * W
}.
#[global] Arguments handle {W} _ {X} _ _.

(** One call together with the answer it got. *)
Inductive Event : Type :=
| Called (X : Type) (e : Eff X) (x : X).
#[global] Arguments Called {X} e x.

(** [run E p w]: the result of [p], the final world, and the calls made,
    oldest first. *)
Fixpoint run {W A : Type} (E : Env W) (p : Prog A) (w : W) : A * W * list Event :=
  match p with
  | Ret a => (a, w, [])
  | Vis e k =>
      let answer := handle E e w in
      let r := run E (k answer.1) answer.2 in
      (r.1.1, r.1.2, Called e answer.1 :: r.2)
  end.

Definition result {W A : Type} (E : Env W) (p : Prog A) (w : W) : A :=
  (run E p w).1.1.
Definition final {W A : Type} (E : Env W) (p : Prog A) (w : W) : W :=
  (run E p w).1.2.
Definition calls {W A : Type} (E : Env W) (p : Prog A) (w : W) : list Event :=
  (run E p w).2.

(** The writes to the local disk that the environment carried out: a
    command that exited with status 0, a file that was created, bytes that
    were written. *)
Inductive Step : Type :=
| Ran (cmd : Cmd)
| Created (name : string) (file : File)
| Wrote (file : File) (b : bytes).

Definition carried_out (ev : Event) : option Step :=
  match ev with
  | Called e x =>
      match e in Eff X return X -> option Step with
      | runWith _ cmd _ _ => fun x => match x.2 with None => Some (Ran cmd) | Some _ => None end
      | os_Create name => fun x => match x.2 with None => Some (Created name x.1) | Some _ => None end
      | File_Write file b => fun x => match x.2 with None => Some (Wrote file b) | Some _ => None end
      | _ => fun _ => None
      end x
  end.

Definition writes (tr : list Event) : list Step := omap carried_out tr.

(** The six writes of a full materialization, in the order [CloneCommand]
    and [commitJar] ask for them. *)
Definition materialize_steps (ctx : Context) (tmpPath dependency path : string)
    (file : File) : list Step :=
  let workingDir := filepath_Dir tmpPath in
  [ Ran (set_Dir (exec_CommandContext ctx "git" ["init"]) workingDir);
    Ran (GitDir_Set tmpPath (exec_CommandContext ctx "unzip" [path; "-d"; workingDir]));
    Created (GitDir_Path tmpPath "lsif-java.json") file;
    Wrote file (json_Marshal {| Kind := "maven"; Jvm := "8";
                                Dependencies := [dependency] |}).1;
    Ran (GitDir_Set tmpPath (exec_CommandContext ctx "git" ["add"; "."]));
    Ran (GitDir_Set tmpPath (exec_CommandContext ctx "git" ["commit"; "-m"; dependency])) ].

End Running.

(** ** A reference environment

    The world is the journal of the writes carried out so far.  The
    registry answers from a table, and a fault plan says which write fails
    and with which output and error. *)

Record Sim : Type := mkSim {
  registry : string -> list string * option error;
  fault : Step -> option (bytes * error)
}.

Section Journal.
Context `{Platform}.

Definition attempt (sim : Sim) (st : Step) (w : list Step) :
    bytes * option error * list Step :=
  match fault sim st with
  | Some (out, e) => (out, Some e, w)
  | None => (EmptyString, None, w ++ [st])
  end.

Definition journal_handle (sim : Sim) (X : Type) (e : Eff X) (w : list Step) :
    X * list Step :=
  match e in Eff X return X * list Step with
  | log15_Info _ _ => (tt, w)
  | coursier_FetchSources _ _ dependency => (registry sim dependency, w)
  | runWith _ cmd _ _ =>
      let '(out, err, w1) := attempt sim (Ran cmd) w in ((out, err), w1)
  | os_Create name =>
      let '(_, err, w1) := attempt sim (Created name (length w)) w in
      ((length w, err), w1)
  | File_Write file b =>
      let '(_, err, w1) := attempt sim (Wrote file b) w in
      ((match err with None => String.length b | Some _ => 0 end, err), w1)
  | File_Close _ => (None, w)
  end.

Definition journal (sim : Sim) : Env (list Step) := mkEnv _ (journal_handle sim).

End Journal.

(** A platform for examples: paths are joined with a slash, [GitDir.Set]
    points the command at the git directory, and strings without special
    characters are quoted as they are. *)
Fixpoint dir_prefix (s : string) : option string :=
  match s with
  | EmptyString => None
  | String c rest =>
      match dir_prefix rest with
      | Some d => Some (String c d)
      | None => if decide (c = Ascii.ascii_of_nat 47) then Some EmptyString else None
      end
  end.

Definition example_Dir (s : string) : string :=
  match dir_prefix s with
  | None => "."
  | Some EmptyString => "/"
  | Some d => d
  end.

Definition example_platform : Platform := {|
  Context := unit;
  MavenConnection := unit;
  DecomposeMavenPath := fun p => p;
  filepath_Dir := example_Dir;
  GitDir_Set := fun dir cmd =>
    {| cmd_Path := cmd_Path cmd; cmd_Args := cmd_Args cmd; cmd_Dir := dir;
       cmd_Env := cmd_Env cmd ++ ["GIT_DIR=" +:+ dir] |};
  GitDir_Path := fun dir elem => dir +:+ "/" +:+ elem;
  json_string := fun s => dquote +:+ s +:+ dquote
|}.

(** Inputs for examples: a coordinate, the temporary path of a clone, a
    registry that resolves one sources archive per coordinate, a world
    where every write goes through, and one where [git add] fails. *)
Module Example.
Section Inputs.
#[local] Existing Instance example_platform.

Definition syncer : MavenArtifactSyncer := @mkSyncer example_platform tt.
Definition remoteURL : URL := mkURL "maven" EmptyString "junit:junit:4.13.2".
Definition tmpPath : string := "/data/repos/.tmp/clone-1/.git".

Definition resolve (dependency : string) : list string * option error :=
  (["/cache/" +:+ dependency +:+ "-sources.jar"], None).

Definition reliable : Sim := mkSim resolve (fun _ => None).


Definition clone (sim : Sim) : option Cmd * option error * list Step * list Event :=
  run (journal sim) (CloneCommand syncer tt remoteURL tmpPath) [].

End Inputs.
End Example.

(** ** Metrics of package [repos] *)

Module Metrics.

Definition tagFamily : string := "family".
Definition tagOwner : string := "owner".
Definition tagID : string := "id".
Definition tagState : string := "state".
Definition tagSuccess : string := "success".

Inductive Kind : Type := GaugeVec | CounterVec | HistogramVec | Counter | Gauge.

(** A metric as declared: its kind, [Name], [Help] and label names. *)
Record Metric : Type := mkMetric {
  kind : Kind;
  Name : string;
  Help : string;
  labels : list string
}.

Definition phabricatorUpdateTime : Metric :=
  mkMetric GaugeVec "src_repoupdater_time_last_phabricator_sync"
    "The last time a comprehensive Phabricator sync finished" [tagID].
Definition lastSync : Metric :=
  mkMetric GaugeVec "src_repoupdater_syncer_sync_last_time"
    "The last time a sync finished" [tagFamily].
Definition syncStarted : Metric :=
  mkMetric CounterVec "src_repoupdater_syncer_start_sync"
    "A sync was started" [tagFamily; tagOwner].
Definition syncedTotal : Metric :=
  mkMetric CounterVec "src_repoupdater_syncer_synced_repos_total"
    "Total number of synced repositories" [tagState; tagFamily].
Definition syncErrors : Metric :=
  mkMetric CounterVec "src_repoupdater_syncer_sync_errors_total"
    "Total number of sync errors" [tagFamily; tagOwner].
Definition syncDuration : Metric :=
  mkMetric HistogramVec "src_repoupdater_syncer_sync_duration_seconds"
    "Time spent syncing" [tagSuccess; tagFamily].
Definition purgeSuccess : Metric :=
  mkMetric Counter "src_repoupdater_purge_success"
    "Incremented each time we remove a repository clone." [].
Definition purgeFailed : Metric :=
  mkMetric Counter "src_repoupdater_purge_failed"
    "Incremented each time we try and fail to remove a repository clone." [].
Definition schedError : Metric :=
  mkMetric Counter "src_repoupdater_sched_error"
    "Incremented each time we encounter an error updating a repository." [].
Definition schedLoops : Metric :=
  mkMetric Counter "src_repoupdater_sched_loops"
    "Incremented each time the scheduler loops." [].
Definition schedAutoFetch : Metric :=
  mkMetric Counter "src_repoupdater_sched_auto_fetch"
    "Incremented each time the scheduler updates a managed repository due to hitting a deadline." [].
Definition schedManualFetch : Metric :=
  mkMetric Counter "src_repoupdater_sched_manual_fetch"
    "Incremented each time the scheduler updates a repository due to user traffic." [].
Definition schedKnownRepos : Metric :=
  mkMetric Gauge "src_repoupdater_sched_known_repos"
    "The number of repositories that are managed by the scheduler." [].
Definition schedUpdateQueueLength : Metric :=
  mkMetric Gauge "src_repoupdater_sched_update_queue_length"
    "The number of repositories that are currently queued for update" [].

(** The values of the label-free counters of the process, by metric name.
    A counter that was never incremented reads 0. *)
Definition value (m : Metric) (reg : gmap string N) : N :=
  default 0%N (reg !! Name m).

(** [c.Inc()]. *)
Definition Inc (m : Metric) (reg : gmap string N) : gmap string N :=
  <[Name m := (value m reg + 1)%N]> reg.

(** *** Gauge functions *)

(** What the database answers to a query for one row with one column: an
    error, SQL [NULL], or a value of the column's type. *)
Inductive Row (V : Type) : Type :=
| RowErr (e : error)
| RowNull
| RowVal (v : V).
#[global] Arguments RowErr {V} e.
#[global] Arguments RowNull {V}.
#[global] Arguments RowVal {V} v.

(** [db.QueryRowContext(context.Background(), q)], by the type of the
    column that [q] selects. *)
Record DB : Type := mkDB {
  QueryRow_int64 : string -> Row Z;
  QueryRow_float64 : string -> Row float
}.

Record NullFloat64 : Type := mkNullFloat64 {
  Float64 : float;
  Valid : bool
}.

(** [float64(count)] for an [int64]: the nearest double, ties to even. *)
Definition float64_of_int64 (count : Z) : float :=
  if (count =? - 2 ^ 63)%Z then (- 0x1p63)%float
  else if (count <? 0)%Z then PrimFloat.opp (PrimFloat.of_uint63 (Uint63.of_Z (- count)))
  else PrimFloat.of_uint63 (Uint63.of_Z count).

(** [row.Scan(&count)] with [count] an [int64]: [database/sql] refuses to
    store [NULL] in it. *)
Definition Scan_int64 (row : Row Z) (count : Z) : Z * option error :=
  match row with
  | RowErr e => (count, Some e)
  | RowNull => (count, Some (External "converting NULL to int64 is unsupported"))
  | RowVal v => (v, None)
  end.

(** [row.Scan(&v)] with [v] a [sql.NullFloat64]. *)
Definition Scan_NullFloat64 (row : Row float) (v : NullFloat64) :
    NullFloat64 * option error :=
  match row with
  | RowErr e => (v, Some e)
  | RowNull => (mkNullFloat64 0%float false, None)
  | RowVal x => (mkNullFloat64 x true, None)
  end.

(** One [log15.Error(msg, "err", err)] line. *)
Record LogLine : Type := mkLogLine {
  log_msg : string;
  log_err : error
}.

Record GaugeFunc : Type := mkGaugeFunc {
  gauge_Name : string;
  gauge_Help : string;
  function : unit -> float * list LogLine
}.

Section WithDB.
Variable db : DB.
Variable sourcegraphDotCom : bool.

Definition scanCount (sql : string) : float * option error :=
  let row := QueryRow_int64 db sql in
  let '(count, err) := Scan_int64 row 0 in
  match err with
  | Some e => (0%float, Some e)
  | None => (float64_of_int64 count, None)
  end.

Definition scanNullFloat (q : string) : NullFloat64 * option error :=
  let row := QueryRow_float64 db q in
  Scan_NullFloat64 row (mkNullFloat64 0%float false).

Definition external_services_total_query : string := "
-- source: internal/repos/metrics.go:src_repoupdater_external_services_total
SELECT COUNT(*) FROM external_services
WHERE deleted_at IS NULL
".

Definition external_services_total (_ : unit) : float * list LogLine :=
  let '(count, err) := scanCount external_services_total_query in
  match err with
  | Some e => (0%float, [mkLogLine "Failed to get total external services" e])
  | None => (count, [])
  end.

Definition user_external_services_total_query : string := "
-- source: internal/repos/metrics.go:src_repoupdater_user_external_services_total
SELECT COUNT(*) FROM external_services
WHERE namespace_user_id IS NOT NULL
AND deleted_at IS NULL
".

Definition user_external_services_total (_ : unit) : float * list LogLine :=
  let '(count, err) := scanCount user_external_services_total_query in
  match err with
  | Some e => (0%float, [mkLogLine "Failed to get total user external services" e])
  | None => (count, [])
  end.

Definition user_repos_total_query : string := "
-- source: internal/repos/metrics.go:src_repoupdater_user_repos_total
SELECT COUNT(*)
FROM external_service_repos esr
JOIN external_services es ON (
  es.id = esr.external_service_id AND
  es.namespace_user_id IS NOT NULL AND
  es.deleted_at IS NULL
)
JOIN repo ON (
  repo.id = esr.repo_id AND
  repo.deleted_at IS NULL
)".

Definition user_repos_total (_ : unit) : float * list LogLine :=
  let '(count, err) := scanCount user_repos_total_query in
  match err with
  | Some e => (0%float, [mkLogLine "Failed to get total user repositories" e])
  | None => (count, [])
  end.

Definition user_with_external_services_total_query : string := "
-- source: internal/repos/metrics.go:src_repoupdater_user_with_external_services_total
SELECT COUNT(DISTINCT(namespace_user_id)) AS total
FROM external_services
WHERE namespace_user_id IS NOT NULL
AND deleted_at IS NULL
".

Definition user_with_external_services_total (_ : unit) : float * list LogLine :=
  let '(count, err) := scanCount user_with_external_services_total_query in
  match err with
  | Some e => (0%float, [mkLogLine "Failed to get total users with external services" e])
  | None => (count, [])
  end.

Definition queued_sync_jobs_total_query : string := "
-- source: internal/repos/metrics.go:src_repoupdater_queued_sync_jobs_total
SELECT COUNT(*) FROM external_service_sync_jobs WHERE state = 'queued'
".

Definition queued_sync_jobs_total (_ : unit) : float * list LogLine :=
  let '(count, err) := scanCount queued_sync_jobs_total_query in
  match err with
  | Some e => (0%float, [mkLogLine "Failed to get total queued sync jobs" e])
  | None => (count, [])
  end.

Definition completed_sync_jobs_total_query : string := "
-- source: internal/repos/metrics.go:src_repoupdater_completed_sync_jobs_total
SELECT COUNT(*) FROM external_service_sync_jobs WHERE state = 'completed'
".

Definition completed_sync_jobs_total (_ : unit) : float * list LogLine :=
  let '(count, err) := scanCount completed_sync_jobs_total_query in
  match err with
  | Some e => (0%float, [mkLogLine "Failed to get total completed sync jobs" e])
  | None => (count, [])
  end.

Definition errored_sync_jobs_percentage_query : string := "
with latest_state as (
    -- Get the most recent state per external service
    select distinct on (external_service_id) external_service_id, state
    from external_service_sync_jobs
    order by external_service_id, finished_at desc
)
select round((select cast(count(*) as float) from latest_state where state = 'errored') /
             (select cast(count(*) as float) from latest_state) * 100)
".

Definition errored_sync_jobs_percentage (_ : unit) : float * list LogLine :=
  let '(percentage, err) := scanNullFloat errored_sync_jobs_percentage_query in
  match err with
  | Some e => (0%float, [mkLogLine "Failed to get total errored sync jobs" e])
  | None =>
      if negb (Valid percentage) then (0%float, [])
      else (Float64 percentage, [])
  end.

Definition backoffQuery : string :=
  let backoffQuery := "
-- source: internal/repos/metrics.go:src_repoupdater_errored_sync_jobs_total
SELECT extract(epoch from max(now() - last_sync_at)) FROM external_services
WHERE deleted_at IS NULL
AND NOT cloud_default
AND last_sync_at IS NOT NULL
" in
  if sourcegraphDotCom
  then backoffQuery +:+ " AND namespace_user_id IS NULL"
  else backoffQuery.

Definition max_sync_backoff (_ : unit) : float * list LogLine :=
  let '(seconds, err) := scanNullFloat backoffQuery in
  match err with
  | Some e => (0%float, [mkLogLine "Failed to get max sync backoff" e])
  | None =>
      if negb (Valid seconds) then (0%float, [])
      else (Float64 seconds, [])
  end.

(** The gauge functions in the order [MustRegisterMetrics] registers
    them. *)
Definition MustRegisterMetrics : list GaugeFunc :=
  [ mkGaugeFunc "src_repoupdater_external_services_total"
      "The total number of external services added" external_services_total;
    mkGaugeFunc "src_repoupdater_user_external_services_total"
      "The total number of external services added by users"
      user_external_services_total;
    mkGaugeFunc "src_repoupdater_user_repos_total"
      "The total number of repositories added by users" user_repos_total;
    mkGaugeFunc "src_repoupdater_user_with_external_services_total"
      "The total number of users who have added external services"
      user_with_external_services_total;
    mkGaugeFunc "src_repoupdater_queued_sync_jobs_total"
      "The total number of queued sync jobs" queued_sync_jobs_total;
    mkGaugeFunc "src_repoupdater_completed_sync_jobs_total"
      "The total number of completed sync jobs" completed_sync_jobs_total;
    mkGaugeFunc "src_repoupdater_errored_sync_jobs_percentage"
      "The percentage of external services that have failed their most recent sync"
      errored_sync_jobs_percentage;
    mkGaugeFunc "src_repoupdater_max_sync_backoff"
      "The maximum number of seconds since any external service synced"
      max_sync_backoff ].

End WithDB.

(** The query each gauge function sends, by position in
    [MustRegisterMetrics], and whether it scans a count or a nullable
    float. *)
Inductive Scanned : Type := AsCount | AsNullFloat.

Definition queries (sourcegraphDotCom : bool) : list (Scanned * string) :=
  [ (AsCount, external_services_total_query);
    (AsCount, user_external_services_total_query);
    (AsCount, user_repos_total_query);
    (AsCount, user_with_external_services_total_query);
    (AsCount, queued_sync_jobs_total_query);
    (AsCount, completed_sync_jobs_total_query);
    (AsNullFloat, errored_sync_jobs_percentage_query);
    (AsNullFloat, backoffQuery sourcegraphDotCom) ].

(** The query for a count, or for a float, failed or came back [NULL]. *)
Definition no_value (db : DB) (q : Scanned * string) : Prop :=
  match q.1 with
  | AsCount =>
      (∃ e, QueryRow_int64 db q.2 = RowErr e) ∨ QueryRow_int64 db q.2 = RowNull
  | AsNullFloat =>
      (∃ e, QueryRow_float64 db q.2 = RowErr e) ∨ QueryRow_float64 db q.2 = RowNull
  end.

(** The value a gauge shows, from the answer to its query. *)
Definition shown (db : DB) (q : Scanned * string) : float :=
  match q.1 with
  | AsCount =>
      match QueryRow_int64 db q.2 with
      | RowVal count => float64_of_int64 count
      | _ => 0%float
      end
  | AsNullFloat =>
      match QueryRow_float64 db q.2 with
      | RowVal x => x
      | _ => 0%float
      end
  end.

(** Inputs for examples: a database that is down, and one that answers
    every count with 7 and has no float to report. *)
Definition db_down : DB :=
  mkDB (fun _ => RowErr (External "connection refused"))
       (fun _ => RowErr (External "connection refused")).
Definition db_fresh : DB := mkDB (fun _ => RowVal 7%Z) (fun _ => RowNull).

(** A gauge function [g] that shows what [shown] says for the query [q],
    and 0 when the query gave no value. *)
Definition reads (db : DB) (g : GaugeFunc) (q : Scanned * string) : Prop :=
  (function g tt).1 = shown db q ∧
  (no_value db q → (function g tt).1 = 0%float).

End Metrics.

(** ** Scheduler core, job store and backoff *)

Module Scheduler.

Definition RepoID : Type := nat.
(** Instants and durations, in seconds. *)
Definition Time : Type := N.
#[global] Bind Scope N_scope with Time.

Inductive JobState : Type := queued | running | completed | errored.
Inductive Trigger : Type := auto | manual.
Inductive ErrorKind : Type :=
| Unreachable | NotFound | PermissionDenied | Timeout | StorageError
| InvariantViolation.
Inductive Family : Type := conventional | artifact_derived.

#[global] Instance Trigger_eq_dec : EqDecision Trigger.
Proof. solve_decision. Defined.

(** Modelled from the spec: the Sync Job record of section 3 (one record
    per synchronization attempt); the job store itself is not among the
    sources. *)
Record SyncJob : Type := mkJob {
  target : RepoID;
  requested_at : Time;
  state : JobState;
  started_at : option Time;
  finished_at : option Time;
  error_detail : option ErrorKind;
  trigger : Trigger
}.

Definition non_terminal (j : SyncJob) : bool :=
  match state j with
  | queued | running => true
  | completed | errored => false
  end.

(** The non-terminal jobs of repository [r]. *)
Definition open_jobs (r : RepoID) (jobs : list SyncJob) : list SyncJob :=
  filter (fun j => target j = r ∧ non_terminal j = true) jobs.

Definition in_flight (r : RepoID) (jobs : list SyncJob) : bool :=
  bool_decide (open_jobs r jobs ≠ []).

(** At most one job in flight for each repository. *)
Definition at_most_one (l : list SyncJob) : Prop :=
  ∀ r, (length (open_jobs r l) ≤ 1)%nat.

Inductive BeginError : Type := AlreadyRunning.

(** Modelled from the spec: [Begin(repoID, trigger) -> jobID |
    Error{AlreadyRunning}] of section 4.3.  The store is the append-only
    list of jobs and a job's ID is its position.  The check and the append
    are one step. *)
Definition Begin (repoID : RepoID) (trig : Trigger) (now : Time)
    (jobs : list SyncJob) : (nat + BeginError) * list SyncJob :=
  if in_flight repoID jobs then (inr AlreadyRunning, jobs)
  else (inl (length jobs),
        jobs ++ [mkJob repoID now running (Some now) None None trig]).

Definition finish (err : option ErrorKind) (now : Time) (j : SyncJob) : SyncJob :=
  mkJob (target j) (requested_at j)
    (match err with None => completed | Some _ => errored end)
    (started_at j) (Some now) err (trigger j).

(** Modelled from the spec: [Complete(jobID, error?)] of section 4.3; a
    report for a job that is already terminal, or that does not exist, is
    ignored. *)
Definition Complete (jobID : nat) (err : option ErrorKind) (now : Time)
    (jobs : list SyncJob) : list SyncJob :=
  match jobs !! jobID with
  | Some j => if non_terminal j then <[jobID := finish err now j]> jobs else jobs
  | None => jobs
  end.

(** Modelled from the spec: the Repository of section 3, with the count
    of consecutive failures that the backoff is derived from. *)
Record Repository : Type := mkRepository {
  repo_id : RepoID;
  repo_name : string;
  family : Family;
  cloneable : bool;
  last_sync : option Time;
  failures : nat;
  backoff_deadline : Time;
  removed : bool
}.

(** Modelled from the spec: the Update Queue Entry of section 3
    (repository ID, due-time, priority class). *)
Record Entry : Type := mkEntry {
  entry_repo : RepoID;
  due : Time;
  class : Trigger
}.

(** Modelled from the spec: the intervals that section 4.2 names (the
    steady-state refresh, the base and the maximum of the backoff, the
    short recheck). *)
Record Policy : Type := mkPolicy {
  steady_interval : Time;
  base_interval : Time;
  max_interval : Time;
  recheck_interval : Time
}.

(** Modelled from the spec: the state the scheduler core owns (known-set
    and queue) together with the job store. *)
Record State : Type := mkState {
  known : gmap RepoID Repository;
  queue : list Entry;
  jobs : list SyncJob
}.

Definition initial : State := mkState ∅ [] [].

(** Modelled from the spec: the backoff of section 4.2, exponential in the
    number of consecutive failures and capped at the maximum interval; one
    failure waits the base interval. *)
Definition backoff (p : Policy) (consecutive_failures : nat) : Time :=
  N.min (max_interval p)
        (base_interval p * 2 ^ N.of_nat (consecutive_failures - 1))%N.

(** Modelled from the spec: a repository has at most one live queue
    entry; re-enqueuing replaces it (section 3). *)
Definition cancel (r : RepoID) (q : list Entry) : list Entry :=
  filter (fun e => entry_repo e ≠ r) q.

Definition enqueue (e : Entry) (q : list Entry) : list Entry :=
  e :: cancel (entry_repo e) q.

(** Modelled from the spec: the order of section 4.2.  [precedes a b]:
    [a] is served before [b]: manual before auto, then the earlier
    due-time, then the smaller repository ID. *)
Definition precedes (a b : Entry) : bool :=
  match class a, class b with
  | manual, auto => true
  | auto, manual => false
  | _, _ =>
      if (due a <? due b)%N then true
      else if (due b <? due a)%N then false
      else bool_decide (entry_repo a ≤ entry_repo b)%nat
  end.

Fixpoint best (q : list Entry) : option Entry :=
  match q with
  | [] => None
  | e :: rest =>
      match best rest with
      | None => Some e
      | Some b => if precedes e b then Some e else Some b
      end
  end.

(** The entries that are due at [now]. *)
Definition live (now : Time) (q : list Entry) : list Entry :=
  filter (fun e => (due e ≤ now)%N) q.

(** Modelled from the spec: [Register] of section 4.2; a new repository
    is enqueued with [auto] priority and due-time zero. *)
Definition Register (repo : Repository) (s : State) : State :=
  match known s !! repo_id repo with
  | Some _ => mkState (<[repo_id repo := repo]> (known s)) (queue s) (jobs s)
  | None =>
      mkState (<[repo_id repo := repo]> (known s))
        (enqueue (mkEntry (repo_id repo) 0%N auto) (queue s)) (jobs s)
  end.

Inductive RequestError : Type := AlreadySyncing.

(** Modelled from the spec: [RequestImmediateSync] of section 4.2; a
    request for a repository with a job in flight is answered "already
    syncing" (sections 7 and 8). *)
Definition RequestImmediateSync (repoID : RepoID) (now : Time) (s : State) :
    option RequestError * State :=
  if in_flight repoID (jobs s) then (Some AlreadySyncing, s)
  else (None, mkState (known s) (enqueue (mkEntry repoID now manual) (queue s)) (jobs s)).

(** Modelled from the spec: [Tick] of section 4.2: pop the best due
    entry, begin a job unless one is in flight, else recheck shortly. *)
Definition Tick (p : Policy) (now : Time) (s : State) : State :=
  match best (live now (queue s)) with
  | None => s
  | Some e =>
      let rest := cancel (entry_repo e) (queue s) in
      if in_flight (entry_repo e) (jobs s)
      then mkState (known s)
             (enqueue (mkEntry (entry_repo e) (now + recheck_interval p)%N (class e)) rest)
             (jobs s)
      else mkState (known s) rest (Begin (entry_repo e) (class e) now (jobs s)).2
  end.

(** Modelled from the spec: what [RecordOutcome] does to the known-set
    entry: a success resets the counter, sets last-sync and schedules
    the steady-state refresh; a failure increments the counter and
    schedules after the backoff. *)
Definition settle (p : Policy) (err : option ErrorKind) (now : Time)
    (r : Repository) : Repository :=
  match err with
  | None =>
      mkRepository (repo_id r) (repo_name r) (family r) (cloneable r)
        (Some now) 0 (now + steady_interval p)%N (removed r)
  | Some _ =>
      mkRepository (repo_id r) (repo_name r) (family r) (cloneable r)
        (last_sync r) (S (failures r))
        (now + backoff p (S (failures r)))%N (removed r)
  end.

(** Modelled from the spec: [RecordOutcome] of section 4.2; a second
    report for the same job is ignored (section 4.3). *)
Definition RecordOutcome (p : Policy) (jobID : nat) (err : option ErrorKind)
    (now : Time) (s : State) : State :=
  match jobs s !! jobID with
  | None => s
  | Some j =>
      if non_terminal j then
        let jobs1 := Complete jobID err now (jobs s) in
        match known s !! target j with
        | None => mkState (known s) (queue s) jobs1
        | Some r =>
            let r1 := settle p err now r in
            mkState (<[target j := r1]> (known s))
              (if removed r then queue s
               else enqueue (mkEntry (target j) (backoff_deadline r1) auto) (queue s))
              jobs1
        end
      else s
  end.

(** Modelled from the spec: [Deregister] of section 4.2: mark removed,
    cancel the queue entry, keep the materialized data. *)
Definition Deregister (repoID : RepoID) (s : State) : State :=
  mkState
    (alter (fun r => mkRepository (repo_id r) (repo_name r) (family r)
                       (cloneable r) (last_sync r) (failures r)
                       (backoff_deadline r) true) repoID (known s))
    (cancel repoID (queue s)) (jobs s).

(** The calls a collaborator or a worker can make. *)
Inductive Call : Type :=
| CallRegister (repo : Repository)
| CallRequestImmediateSync (repoID : RepoID) (now : Time)
| CallTick (now : Time)
| CallRecordOutcome (jobID : nat) (err : option ErrorKind) (now : Time)
| CallDeregister (repoID : RepoID)
| CallBegin (repoID : RepoID) (trig : Trigger) (now : Time)
| CallComplete (jobID : nat) (err : option ErrorKind) (now : Time).

Definition step (p : Policy) (s : State) (c : Call) : State :=
  match c with
  | CallRegister repo => Register repo s
  | CallRequestImmediateSync repoID now => (RequestImmediateSync repoID now s).2
  | CallTick now => Tick p now s
  | CallRecordOutcome jobID err now => RecordOutcome p jobID err now s
  | CallDeregister repoID => Deregister repoID s
  | CallBegin repoID trig now =>
      mkState (known s) (queue s) (Begin repoID trig now (jobs s)).2
  | CallComplete jobID err now =>
      mkState (known s) (queue s) (Complete jobID err now (jobs s))
  end.

(** All calls are serialized: a run is a sequence of calls. *)
Definition after (p : Policy) (cs : list Call) : State := foldl (step p) initial cs.

(** The known-set entry after a history of outcomes, oldest first, each
    with the instant it was recorded at; and the delay from [now] until the
    repository is due. *)
Definition replay (p : Policy) (r : Repository)
    (outcomes : list (option ErrorKind * Time)) : Repository :=
  foldl (fun r o => settle p o.1 o.2 r) r outcomes.

Definition delay (now : Time) (r : Repository) : Time :=
  (backoff_deadline r - now)%N.

(** Inputs for examples: a policy with a base interval of one minute, a
    cap of one hour and a refresh every eight hours, and two
    repositories. *)
Definition example_policy : Policy := mkPolicy 28800 60 3600 5.
Definition R1 : Repository :=
  mkRepository 1 "github.com/example/r1"%string conventional true None 0 0%N false.
Definition R2 : Repository :=
  mkRepository 2 "maven/pkg:1.0.0"%string artifact_derived true None 0 0%N false.

End Scheduler.

(** ** Purge worker *)

Module Purge.
Import Metrics.

(** Modelled from the spec: the sweep of section 4.4.  The orphans are the
    materialized repositories that are not in the known-set and have no
    job in flight; each is removed on its own, and the outcome is counted
    in [purgeSuccess] or in [purgeFailed]. *)
Record World : Type := mkWorld {
  disk : gset nat;
  counters : gmap string N
}.

Definition orphans (materialized : list nat) (known : gset nat)
    (busy : nat -> bool) : list nat :=
  filter (fun r => (r ∉ known) ∧ busy r = false) materialized.

(** [removes r] says whether the storage layer manages to delete the clone
    of [r]. *)
Definition remove_clone (removes : nat -> bool) (w : World) (r : nat) : World :=
  if removes r
  then mkWorld (disk w ∖ {[r]}) (Inc purgeSuccess (counters w))
  else mkWorld (disk w) (Inc purgeFailed (counters w)).

Definition sweep (removes : nat -> bool) (known : gset nat) (busy : nat -> bool)
    (w : World) : World :=
  foldl (remove_clone removes) w (orphans (elements (disk w)) known busy).

(** Inputs for examples: clones of repositories 1, 2 and 3 on disk, of
    which only 1 is known; the clone of 2 cannot be deleted. *)
Definition example_world : World := mkWorld {[1; 2; 3]} ∅.
Definition example_removes (r : nat) : bool := negb (Nat.eqb r 2).

End Purge.

(** ** The frontend command (package [cli]) *)

Module Cli.
Local Open Scope string_scope.

(** *** Go library functions the command uses *)

(** [strings.HasPrefix(s, prefix)]. *)
Definition HasPrefix (s prefix : string) : bool := String.prefix prefix s.

(** [strings.Replace(s, old, new, -1)].  For a non-empty [old] every
    non-overlapping occurrence is replaced, leftmost first; [skip] counts
    the bytes of the occurrence found last that are still to be passed
    over.  For an empty [old], [new] goes in front of every character and
    at the end (characters are taken to be single bytes there). *)
Fixpoint replace_from (old new s : string) (skip : nat) : string :=
  match s with
  | EmptyString => EmptyString
  | String c rest =>
      match skip with
      | S k => replace_from old new rest k
      | 0 =>
          if String.prefix old s
          then new +:+ replace_from old new rest (String.length old - 1)
          else String c (replace_from old new rest 0)
      end
  end.

Fixpoint intersperse_before (new s : string) : string :=
  match s with
  | EmptyString => new
  | String c rest => new +:+ String c (intersperse_before new rest)
  end.

Definition Replace_all (s old new : string) : string :=
  match old with
  | EmptyString => intersperse_before new s
  | String _ _ => replace_from old new s 0
  end.

(** [strings.Contains(s, substr)]. *)
Fixpoint Contains (s substr : string) : bool :=
  String.prefix substr s ||
  match s with
  | EmptyString => false
  | String _ rest => Contains rest substr
  end.

(** [strconv.ParseBool]. *)
Definition ParseBool (str : string) : bool * option error :=
  if decide (str ∈ ["1"; "t"; "T"; "TRUE"; "true"; "True"]) then (true, None)
  else if decide (str ∈ ["0"; "f"; "F"; "FALSE"; "false"; "False"]) then (false, None)
  else (false, Some (Errorf "strconv.ParseBool: parsing %q: invalid syntax" [str])).

(** The bytes allowed in a header field name (RFC 7230 tokens). *)
Definition validHeaderFieldByte (c : Ascii.ascii) : bool :=
  let n := Ascii.nat_of_ascii c in
  bool_decide (48 ≤ n ≤ 57)%nat || bool_decide (65 ≤ n ≤ 90)%nat ||
  bool_decide (97 ≤ n ≤ 122)%nat ||
  bool_decide (n ∈ [33; 35; 36; 37; 38; 39; 42; 43; 45; 46; 94; 95; 96; 124; 126]).

Fixpoint all_valid (s : string) : bool :=
  match s with
  | EmptyString => true
  | String c rest => validHeaderFieldByte c && all_valid rest
  end.

Fixpoint canonicalize (upper : bool) (s : string) : string :=
  match s with
  | EmptyString => EmptyString
  | String c rest =>
      let n := Ascii.nat_of_ascii c in
      let c' :=
        if upper && bool_decide (97 ≤ n ≤ 122)%nat then Ascii.ascii_of_nat (n - 32)
        else if negb upper && bool_decide (65 ≤ n ≤ 90)%nat then Ascii.ascii_of_nat (n + 32)
        else c in
      String c' (canonicalize (bool_decide (c' = Ascii.ascii_of_nat 45)) rest)
  end.

(** [textproto.CanonicalMIMEHeaderKey]: a key with a byte that is not
    allowed in a field name is left as it is; otherwise the first letter
    and every letter after a hyphen is upper case and the others are
    lower case. *)
Definition CanonicalMIMEHeaderKey (s : string) : string :=
  if all_valid s then canonicalize true s else s.

(** [http.Header] with [Set] and [Get]. *)
Abbreviation Header := (gmap string (list string)).

Definition Header_Set (h : Header) (key value : string) : Header :=
  <[CanonicalMIMEHeaderKey key := [value]]> h.

Definition Header_Get (h : Header) (key : string) : string :=
  match h !! CanonicalMIMEHeaderKey key with
  | Some (v :: _) => v
  | _ => EmptyString
  end.

(** *** [configureAppURL] *)

(** The package variables a call reads or writes. *)
Record Vars : Type := mkVars {
  httpAddr : string;
  appURL : string;
  enableHSTS : string;
  corsOrigin : string
}.

Definition set_appURL (v : Vars) (u : string) : Vars :=
  mkVars (httpAddr v) u (enableHSTS v) (corsOrigin v).

Section WithParse.
(** [url.Parse]: the URL, or the error with a [nil] URL. *)
Variable url_Parse : string -> URL + error.

Definition configureAppURL (v : Vars) : option URL * option error * Vars :=
  let hostPort :=
    if HasPrefix (httpAddr v) ":"
    then "127.0.0.1" +:+ httpAddr v   (* Prepend localhost if HTTP listen addr is just a port. *)
    else httpAddr v in
  let v := if decide (appURL v = EmptyString) then set_appURL v "http://<http-addr>" else v in
  let v := set_appURL v (Replace_all (appURL v) "<http-addr>" hostPort) in
  match url_Parse (appURL v) with
  | inr err => (None, Some err, v)
  | inl u => (Some u, None, v)
  end.

(** *** The handler that sets the security headers *)

Record Request : Type := mkRequest {
  Method : string;
  req_URL : URL;
  req_Header : Header
}.

(** [r.Referer()]. *)
Definition Referer (r : Request) : string := Header_Get (req_Header r) "Referer".

(** The response under construction: its header map and the status code
    once [WriteHeader] was called. *)
Record ResponseWriter : Type := mkResponseWriter {
  resp_Header : Header;
  resp_status : option nat
}.

(** [w.Header().Set(key, value)]. *)
Definition SetHeader (w : ResponseWriter) (key value : string) : ResponseWriter :=
  mkResponseWriter (Header_Set (resp_Header w) key value) (resp_status w).

(** [w.WriteHeader(code)]: the first call fixes the status. *)
Definition WriteHeader (w : ResponseWriter) (code : nat) : ResponseWriter :=
  match resp_status w with
  | Some _ => w
  | None => mkResponseWriter (resp_Header w) (Some code)
  end.

Definition StatusOK : nat := 200.

(** An [http.Handler], by what [ServeHTTP] does to the response. *)
Definition Handler : Type := ResponseWriter -> Request -> ResponseWriter.

(** The function literal that [Main] wraps around the handler [h]. *)
Definition securityHeaders (v : Vars) (next : Handler) : Handler :=
  fun w r =>
    (* headers for security *)
    let w := SetHeader w "X-Content-Type-Options" "nosniff" in
    let w := SetHeader w "X-XSS-Protection" "1; mode=block" in
    (* Open up X-Frame-Options for the chrome extension when running on github.com *)
    let url := url_Parse (Referer r) in
    let w :=
      if negb (HasPrefix (url_Path (req_URL r)) "/.app/") &&
         negb (match url with
               | inl u => bool_decide (url_Scheme u = "https") &&
                          bool_decide (url_Host u = "github.com")
               | inr _ => false
               end)
      then SetHeader w "X-Frame-Options" "DENY"
      else w in
    let w :=
      if (ParseBool (enableHSTS v)).1
      then SetHeader w "Strict-Transport-Security" "max-age=8640000"
      else w in
    (* no cache by default *)
    let w := SetHeader w "Cache-Control" "no-cache, max-age=0" in
    (* CORS *)
    if decide (corsOrigin v ≠ EmptyString) then
      let w := SetHeader w "Access-Control-Allow-Credentials" "true" in
      let w := SetHeader w "Access-Control-Allow-Origin" (corsOrigin v) in
      if decide (Method r = "OPTIONS") then
        let w := SetHeader w "Access-Control-Allow-Methods" "GET, POST, OPTIONS" in
        let w := SetHeader w "Access-Control-Allow-Headers"
                   "X-Requested-With, X-Sourcegraph-Client, Content-Type" in
        WriteHeader w StatusOK   (* do not invoke next handler *)
      else next w r
    else next w r.

End WithParse.

(** *** [httpServers] *)

(** [time.Second], in nanoseconds. *)
Definition Second : N := 1000000000.

Record Server : Type := mkServer {
  srv_Handler : Handler;
  ReadTimeout : N;
  WriteTimeout : N
}.

(** The fields of [httpServers]; [mu] guards every method body, so each
    method is one step.  [wg] is the counter of the wait group. *)
Record httpServers : Type := mkServers {
  wg : Z;
  servers : list Server;
  wrapper : option (Handler -> Handler)
}.

Definition SetWrapper (s : httpServers) (w : Handler -> Handler) : httpServers :=
  mkServers (wg s) (servers s) (Some w).

Definition newServer (s : httpServers) (h : Handler) : Server * httpServers :=
  let h := match wrapper s with Some w => w h | None => h end in
  let srv := mkServer h (75 * Second) (60 * Second) in
  (srv, mkServers (wg s) (servers s ++ [srv]) (wrapper s)).

(** [Close]: the servers closed, in order, and the state left. *)
Definition Close (s : httpServers) : list Server * httpServers :=
  (servers s, mkServers (wg s) [] (wrapper s)).

(** Inputs for examples: a parser that accepts what starts with a
    scheme, and the settings of a server that listens on port 3080. *)
Definition example_Parse (s : string) : URL + error :=
  if String.prefix "https://" s then inl (mkURL "https" (String.substring 8 (String.length s) s) EmptyString)
  else if String.prefix "http://" s then inl (mkURL "http" (String.substring 7 (String.length s) s) EmptyString)
  else inr (External "missing protocol scheme").

Definition example_vars : Vars := mkVars ":3080" EmptyString "false" EmptyString.

End Cli.

(** ** Observations on the calls of a run *)

(** [errors.Cause]: the innermost error of a chain of [Wrapf]. *)
Fixpoint Cause (err : error) : error :=
  match err with
  | Wrapf cause _ _ => Cause cause
  | _ => err
  end.

Section Observations.
Context `{Platform}.

(** The file that a call closes. *)
Definition closed_file (ev : Event) : option File :=
  match ev with
  | Called (File_Close file) _ => Some file
  | Called _ _ => None
  end.

(** The file that a write created. *)
Definition created_file (st : Step) : option File :=
  match st with
  | Created _ file => Some file
  | _ => None
  end.

(** The error a call came back with, for the calls whose error the
    syncer looks at (it ignores the error of [Close]). *)
Definition failure (ev : Event) : option error :=
  match ev with
  | Called e x =>
      match e in Eff X return X -> option error with
      | coursier_FetchSources _ _ _ => fun x => x.2
      | runWith _ _ _ _ => fun x => x.2
      | os_Create _ => fun x => x.2
      | File_Write _ _ => fun x => x.2
      | _ => fun _ => None
      end x
  end.

(** [tr] stops at a call that failed with [e]: no call before it failed,
    and nothing but the closing of a file follows it. *)
Definition stops_at (tr : list Event) (e : error) : Prop :=
  ∃ pre ev post,
    tr = pre ++ ev :: post ∧ omap failure pre = [] ∧ failure ev = Some e ∧
    Forall (λ x, is_Some (closed_file x)) post.

End Observations.

(** ** Registration of the metrics *)

Module Registry.
Import Metrics.

(** The default registry of the process, by the names of the collectors
    registered.  [promauto.New...] registers the collector and panics
    ([None]) when one of the same name is registered already. *)
Definition register (name : string) (reg : gset string) : option (gset string) :=
  if decide (name ∈ reg) then None else Some ({[name]} ∪ reg).

Definition register_all (names : list string) (reg : gset string) :
    option (gset string) :=
  foldl (fun acc name => acc ≫= register name) (Some reg) names.

(** The package variables, in the order of their declaration; they are
    registered when the package is initialized. *)
Definition package_vars : list Metric :=
  [ phabricatorUpdateTime; lastSync; syncStarted; syncedTotal; syncErrors;
    syncDuration; purgeSuccess; purgeFailed; schedError; schedLoops;
    schedAutoFetch; schedManualFetch; schedKnownRepos; schedUpdateQueueLength ].

Definition init : option (gset string) := register_all (Name <$> package_vars) ∅.

(** The registrations of one call of [MustRegisterMetrics]. *)
Definition register_gauges (db : DB) (sourcegraphDotCom : bool)
    (reg : gset string) : option (gset string) :=
  register_all (gauge_Name <$> MustRegisterMetrics db sourcegraphDotCom) reg.


End Registry.

(** ** The post sign-up page ([PostSignUpPage]) *)

Module PostSignUp.

(** [xs.slice(start, end)] for integers: a negative index counts from the
    end, and both ends are clamped to the array. *)
Definition slice {A : Type} (xs : list A) (start stop : Z) : list A :=
  let len := Z.of_nat (length xs) in
  let k := if (start <? 0)%Z then Z.max (len + start) 0 else Z.min start len in
  let final := if (stop <? 0)%Z then Z.max (len + stop) 0 else Z.min stop len in
  take (Z.to_nat (final - k)) (drop (Z.to_nat k) xs).

(** [xs[i]] for an integer: [undefined] outside the array. *)
Definition at_index {A : Type} (xs : list A) (i : Z) : option A :=
  if (i <? 0)%Z then None else xs !! Z.to_nat i.

(** The result of the query for the external services of the user, as
    far as the page reads it: [data?.externalServices?.nodes]. *)
Record ExternalServices : Type := mkExternalServices {
  nodes : option (list string)
}.
Record Data : Type := mkData {
  externalServices : option ExternalServices
}.

(** A step, with its heading in place of its content. *)
Record Step : Type := mkStep {
  heading : string;
  isComplete : bool
}.

(** step is considered complete when user has at least one external
    service *)
Definition connectCodeHosts (data : option Data) : Step :=
  mkStep "Connect with code hosts"
    (match data with
     | None => false
     | Some d =>
         match externalServices d ≫= nodes with
         | Some ns => bool_decide (0 < length ns)
         | None => false
         end
     end).

Definition addRepositories : Step := mkStep "Add repositories" true.
Definition startSearching : Step := mkStep "Start searching..." false.

Definition steps (data : option Data) : list Step :=
  [connectCodeHosts data; addRepositories; startSearching].

Definition isLastStep (data : option Data) (currentStepNumber : Z) : bool :=
  (currentStepNumber =? Z.of_nat (length (steps data)))%Z.

Definition currentStep (data : option Data) (currentStepNumber : Z) : option Step :=
  at_index (steps data) (currentStepNumber - 1).

Definition goToNextTab (currentStepNumber : Z) : Z := (currentStepNumber + 1)%Z.

(** [currentStep?.isComplete()], where it is used as a condition. *)
Definition isCurrentStepComplete (data : option Data) (currentStepNumber : Z) : bool :=
  match currentStep data currentStepNumber with
  | Some step => isComplete step
  | None => false
  end.

(** The branch of [onStepTabClick] that a click takes. *)
Inductive Branch : Type := current_tab | backwards | next_tab | further_away.

Definition branch (currentStepNumber clickedStepTabNumber : Z) : Branch :=
  if (clickedStepTabNumber =? currentStepNumber)%Z then current_tab
  else if (clickedStepTabNumber <? currentStepNumber)%Z then backwards
  else if (currentStepNumber - 1 =? clickedStepTabNumber)%Z then next_tab
  else further_away.

(** [onStepTabClick]: the step number after the click. *)
Definition onStepTabClick (data : option Data) (currentStepNumber : Z)
    (clickedStepTabNumber : Z) : Z :=
  match branch currentStepNumber clickedStepTabNumber with
  | current_tab => currentStepNumber   (* do nothing for the current tab *)
  | backwards => clickedStepTabNumber
  | next_tab =>
      if isCurrentStepComplete data currentStepNumber
      then clickedStepTabNumber else currentStepNumber
  | further_away =>
      let areInBetweenStepsComplete :=
        forallb isComplete
          (slice (steps data) (currentStepNumber - 1) (clickedStepTabNumber - 1)) in
      if areInBetweenStepsComplete then clickedStepTabNumber else currentStepNumber
  end.

(** What the user can do on the page, and what it leads to: another step,
    or the page the user came from. *)
Inductive Action : Type :=
| ClickTab (clickedStepTabNumber : Z)
| ClickContinue
| ClickNotNow
| ClickPreviousTab
| ClickNextTab.

Inductive Page : Type :=
| OnStep (currentStepNumber : Z)
| ReturnedTo.

(** A disabled button does nothing, and a button that is not rendered
    cannot be clicked. *)
Definition act (data : option Data) (currentStepNumber : Z) (a : Action) : Page :=
  match a with
  | ClickTab n => OnStep (onStepTabClick data currentStepNumber n)
  | ClickContinue =>
      if negb (isCurrentStepComplete data currentStepNumber)
      then OnStep currentStepNumber
      else if isLastStep data currentStepNumber then ReturnedTo
      else OnStep (goToNextTab currentStepNumber)
  | ClickNotNow =>
      if negb (isLastStep data currentStepNumber) then ReturnedTo
      else OnStep currentStepNumber
  | ClickPreviousTab =>
      if (currentStepNumber =? 1)%Z then OnStep currentStepNumber
      else OnStep (currentStepNumber - 1)%Z
  | ClickNextTab =>
      if (currentStepNumber =? Z.of_nat (length (steps data)))%Z
      then OnStep currentStepNumber
      else OnStep (goToNextTab currentStepNumber)
  end.

(** A visit: the page starts on step 1; every action comes with the data
    the query holds at that time. *)
Fixpoint visit (page : Page) (actions : list (option Data * Action)) : Page :=
  match actions with
  | [] => page
  | (data, a) :: rest =>
      match page with
      | OnStep n => visit (act data n a) rest
      | ReturnedTo => ReturnedTo
      end
  end.

(** The tab numbers that the clicks of a visit carry. *)
Definition tabs_between (lo hi : Z) (actions : list (option Data * Action)) : Prop :=
  ∀ data n, (data, ClickTab n) ∈ actions → (lo ≤ n ≤ hi)%Z.

End PostSignUp.

(** ** The dashboard select ([DashboardSelect]) *)

Module DashboardSelect.

Inductive InsightsDashboardType : Type := All | Personal | Organization.

#[global] Instance InsightsDashboardType_eq_dec : EqDecision InsightsDashboardType.
Proof. solve_decision. Defined.

(** The fields of an [InsightDashboard] that the component reads. *)
Record Owner : Type := mkOwner {
  owner_id : string;
  owner_name : string
}.

Record InsightDashboard : Type := mkDashboard {
  id : string;
  type : InsightsDashboardType;
  owner : Owner
}.

Record DashboardOrganizationGroup : Type := mkGroup {
  group_id : string;
  group_name : string;
  dashboards : list InsightDashboard
}.

(** *** The object used as a dictionary *)

(** The properties that an object literal inherits from
    [Object.prototype]. *)
Definition Object_prototype : list string :=
  [ "constructor"; "__defineGetter__"; "__defineSetter__"; "hasOwnProperty";
    "__lookupGetter__"; "__lookupSetter__"; "isPrototypeOf";
    "propertyIsEnumerable"; "toString"; "valueOf"; "__proto__";
    "toLocaleString" ].

(** The own properties of the store, in the order of their creation. *)
Definition Store : Type := list (string * DashboardOrganizationGroup).

Fixpoint own (store : Store) (key : string) : option DashboardOrganizationGroup :=
  match store with
  | [] => None
  | (k, g) :: rest => if decide (k = key) then Some g else own rest key
  end.

(** [store[key]]: an own property, a property of the prototype, or
    [undefined]. *)
Inductive Property : Type :=
| Own (g : DashboardOrganizationGroup)
| Inherited
| Undefined.

Definition get (store : Store) (key : string) : Property :=
  match own store key with
  | Some g => Own g
  | None => if decide (key ∈ Object_prototype) then Inherited else Undefined
  end.

(** [store[key].dashboards.push(dashboard)] on an own property. *)
Fixpoint push (store : Store) (key : string) (dashboard : InsightDashboard) : Store :=
  match store with
  | [] => []
  | (k, g) :: rest =>
      if decide (k = key)
      then (k, mkGroup (group_id g) (group_name g) (dashboards g ++ [dashboard])) :: rest
      else (k, g) :: push rest key dashboard
  end.

(** The value of a decimal digit. *)
Definition digit (c : Ascii.ascii) : option N :=
  let n := Ascii.N_of_ascii c in
  if decide (48 ≤ n ≤ 57)%N then Some (n - 48)%N else None.

Fixpoint digits (s : string) (acc : N) : option N :=
  match s with
  | EmptyString => Some acc
  | String c rest =>
      match digit c with
      | Some d => digits rest (10 * acc + d)%N
      | None => None
      end
  end.

(** A key is an array index when it is the decimal numeral, without
    leading zeros, of an integer up to [2^32 - 2]. *)
Definition array_index (key : string) : option N :=
  match key with
  | EmptyString => None
  | String c rest =>
      if decide (c = Ascii.ascii_of_nat 48 ∧ rest ≠ EmptyString) then None
      else match digits key 0 with
           | Some n => if decide (n ≤ 4294967294)%N then Some n else None
           | None => None
           end
  end.

Fixpoint insert_by_index {A : Type} (n : N) (x : A) (sorted : list (N * A)) :
    list (N * A) :=
  match sorted with
  | [] => [(n, x)]
  | (m, y) :: rest =>
      if decide (n ≤ m)%N then (n, x) :: sorted
      else (m, y) :: insert_by_index n x rest
  end.

(** The entries whose key is an array index, in ascending order of the
    index. *)
Fixpoint indexed {A : Type} (entries : list (string * A)) : list (N * A) :=
  match entries with
  | [] => []
  | (k, x) :: rest =>
      match array_index k with
      | Some n => insert_by_index n x (indexed rest)
      | None => indexed rest
      end
  end.

(** The other own properties, in the order of their creation. *)
Definition named (store : Store) : list DashboardOrganizationGroup :=
  snd <$> filter (fun kg => array_index kg.1 = None) store.

(** [Object.values(store)]: array indices first, in ascending order, then
    the other keys in the order of their creation. *)
Definition Object_values (store : Store) : list DashboardOrganizationGroup :=
  (snd <$> indexed store) ++ named store.

(** *** [getDashboardOrganizationsGroups] *)

Inductive TypeError : Type := cannot_read_push_of_undefined.

(** The callback of [reduce]. *)
Definition reducer (store : Store) (dashboard : InsightDashboard) :
    TypeError + Store :=
  let key := owner_id (owner dashboard) in
  match get store key with
  | Undefined =>
      (* !store[key]: the group is created, then the dashboard is pushed *)
      inr (store ++ [(key, mkGroup key (owner_name (owner dashboard)) [dashboard])])
  | Own _ => inr (push store key dashboard)
  | Inherited =>
      (* store[key] is a member of Object.prototype and has no dashboards *)
      inl cannot_read_push_of_undefined
  end.

Definition reduce (ds : list InsightDashboard) (store : Store) : TypeError + Store :=
  foldl (fun acc d => match acc with inl e => inl e | inr st => reducer st d end)
        (inr store) ds.

Definition getDashboardOrganizationsGroups (dashboards : list InsightDashboard) :
    TypeError + list DashboardOrganizationGroup :=
  match reduce (filter (fun dashboard => type dashboard = Organization) dashboards) [] with
  | inl e => inl e
  | inr groupsDictionary => inr (Object_values groupsDictionary)
  end.

(** The keys of [ks] in the order of their first appearance. *)
Definition first_appearances (ks : list string) : list string :=
  foldl (fun acc k => if decide (k ∈ acc) then acc else acc ++ [k]) [] ks.

(** The dashboards of the owner [key] among [l], in the order of [l];
    the group they make, named after the first of them; and the store
    that holds one such group for every owner, in the order in which the
    owners first appear. *)
Definition members (key : string) (l : list InsightDashboard) : list InsightDashboard :=
  filter (fun d => owner_id (owner d) = key) l.

Definition group_of (l : list InsightDashboard) (key : string) :
    DashboardOrganizationGroup :=
  mkGroup key
    (match members key l with
     | d :: _ => owner_name (owner d)
     | [] => EmptyString
     end)
    (members key l).

Definition owners (l : list InsightDashboard) : list string :=
  first_appearances ((fun d => owner_id (owner d)) <$> l).

Definition grouped (l : list InsightDashboard) : Store :=
  (fun key => (key, group_of l key)) <$> owners l.

(** The organization dashboards among [ds]. *)
Definition organization (ds : list InsightDashboard) : list InsightDashboard :=
  filter (fun d => type d = Organization) ds.

(** Dashboards of three organizations and one user. *)
Definition example_dashboards : list InsightDashboard :=
  [ mkDashboard "d1" Organization (mkOwner "10" "Ten");
    mkDashboard "d2" Personal (mkOwner "u1" "User");
    mkDashboard "d3" Organization (mkOwner "acme" "Acme");
    mkDashboard "d4" Organization (mkOwner "2" "Two");
    mkDashboard "d5" Organization (mkOwner "acme" "Acme, renamed") ].

End DashboardSelect.

(** * Properties *)

(** ** The artifact-derived strategy *)

Section SyncerFacts.
Context `{Platform} {W : Type} (E : Env W).

Lemma run_bind {A B : Type} (p : Prog A) (f : A -> Prog B) (w : W) :
  run E (bind p f) w =
  let r1 := run E p w in
  let r2 := run E (f r1.1.1) r1.1.2 in
  (r2.1.1, r2.1.2, r1.2 ++ r2.2).
Proof.
  revert w. induction p as [a | X e k IH]; intros w; simpl.
  - by destruct (run E (f a) w) as [[b w2] tr2].
  - by rewrite IH.
Qed.

Lemma writes_app (tr1 tr2 : list Event) :
  writes (tr1 ++ tr2) = writes tr1 ++ writes tr2.
Proof. apply omap_app. Qed.

(** What a run of [commitJar] leaves, by the step that fails.  [wr] are
    the writes carried out; on success they are the last five steps of a
    materialization. *)
Lemma commitJar_writes (s : MavenArtifactSyncer) (ctx : Context) (dir : GitDir)
    (workingDir dependency path : string) (w : W) :
  let r := run E (commitJar s ctx dir workingDir dependency path) w in
  let unzip := Ran (GitDir_Set dir (exec_CommandContext ctx "unzip" [path; "-d"; workingDir])) in
  let add := Ran (GitDir_Set dir (exec_CommandContext ctx "git" ["add"; "."])) in
  let commit := Ran (GitDir_Set dir (exec_CommandContext ctx "git" ["commit"; "-m"; dependency])) in
  let json := (json_Marshal {| Kind := "maven"; Jvm := "8"; Dependencies := [dependency] |}).1 in
  ∃ file : File,
    let all := [unzip; Created (GitDir_Path dir "lsif-java.json") file;
                Wrote file json; add; commit] in
    match r.1.1 with
    | None => writes r.2 = all
    | Some _ => ∃ n, n < 5 ∧ writes r.2 = take n all
    end.
Proof.
  cbv zeta. unfold commitJar, deferred_Close, mbind, Prog_bind, trigger. simpl.
  destruct (handle E (runWith _ _ _ _) w) as [[out1 [e1|]] w1]; simpl.
  { exists 0. exists 0. split; [lia | done]. }
  destruct (handle E (os_Create _) w1) as [[file [e2|]] w2]; simpl.
  { exists 0. exists 1. split; [lia | done]. }
  exists file.
  destruct (handle E (File_Write _ _) w2) as [[n3 [e3|]] w3]; simpl.
  { destruct (handle E (File_Close file) w3) as [c w4]; simpl.
    exists 2. split; [lia | done]. }
  destruct (handle E (runWith _ _ _ _) w3) as [[out4 [e4|]] w4]; simpl.
  { destruct (handle E (File_Close file) w4) as [c w5]; simpl.
    exists 3. split; [lia | done]. }
  destruct (handle E (runWith _ _ _ _) w4) as [[out5 [e5|]] w5]; simpl.
  { destruct (handle E (File_Close file) w5) as [c w6]; simpl.
    exists 4. split; [lia | done]. }
  destruct (handle E (File_Close file) w5) as [c w6]; simpl.
  done.
Qed.

(** What a run of [CloneCommand] leaves, by the answer of the registry. *)
Lemma CloneCommand_writes (s : MavenArtifactSyncer) (ctx : Context)
    (remoteURL : URL) (tmpPath : string) (w : W) :
  let dependency := DecomposeMavenPath (url_Path remoteURL) in
  let r := run E (CloneCommand s ctx remoteURL tmpPath) w in
  let answer := (handle E (coursier_FetchSources ctx (Config s) dependency) w).1 in
  match answer.2, answer.1 with
  | Some _, _ | None, [] => r.1.1.2 ≠ None ∧ writes r.2 = []
  | None, path :: _ =>
      ∃ file : File,
        let all := materialize_steps ctx tmpPath dependency path file in
        match r.1.1.2 with
        | None =>
            writes r.2 = all ∧
            r.1.1.1 = Some (exec_CommandContext ctx "git" ["--version"])
        | Some _ => ∃ n, n < 6 ∧ writes r.2 = take n all
        end
  end.
Proof.
  cbv zeta. unfold CloneCommand, mbind, Prog_bind, trigger.
  cbn -[commitJar].
  destruct (handle E (coursier_FetchSources _ _ _) w) as [[paths [e0|]] w0];
    cbn -[commitJar].
  { done. }
  destruct paths as [|path rest]; cbn -[commitJar].
  { done. }
  destruct (handle E (log15_Info _ _) w0) as [[] w1]; cbn -[commitJar].
  destruct (handle E (runWith _ _ _ _) w1) as [[out [e1|]] w2]; cbn -[commitJar].
  { exists 0. exists 0. split; [lia | done]. }
  rewrite run_bind.
  pose proof (commitJar_writes s ctx tmpPath (filepath_Dir tmpPath)
                (DecomposeMavenPath (url_Path remoteURL)) path w2) as Hc.
  cbv zeta in Hc. destruct Hc as [file Hc]. exists file.
  unfold writes in *.
  destruct (run E (commitJar _ _ _ _ _ _) w2) as [[[e|] w3] tr]; cbn in *;
    rewrite app_nil_r.
  - destruct Hc as (n & Hn & ->). exists (S n). split; [lia | done].
  - by rewrite Hc.
Qed.

(** For one coordinate, one fetched path and one temporary path the writes
    of a successful [CloneCommand] are the same whatever the state of the
    world it starts from, up to the file handle the system hands out: the
    destination is never inspected and there is no shortcut for a
    destination that is already materialized. *)
Lemma CloneCommand_rederives (s : MavenArtifactSyncer) (ctx : Context)
    (remoteURL : URL) (tmpPath : string) (w1 w2 : W) (path : string)
    (rest1 rest2 : list string) :
  let dependency := DecomposeMavenPath (url_Path remoteURL) in
  (handle E (coursier_FetchSources ctx (Config s) dependency) w1).1 = (path :: rest1, None) →
  (handle E (coursier_FetchSources ctx (Config s) dependency) w2).1 = (path :: rest2, None) →
  (result E (CloneCommand s ctx remoteURL tmpPath) w1).2 = None →
  (result E (CloneCommand s ctx remoteURL tmpPath) w2).2 = None →
  ∃ file1 file2,
    writes (calls E (CloneCommand s ctx remoteURL tmpPath) w1) =
      materialize_steps ctx tmpPath dependency path file1 ∧
    writes (calls E (CloneCommand s ctx remoteURL tmpPath) w2) =
      materialize_steps ctx tmpPath dependency path file2.
Proof.
  intros dependency H1 H2 Hok1 Hok2. subst dependency.
  unfold result, calls in *.
  pose proof (CloneCommand_writes s ctx remoteURL tmpPath w1) as C1.
  pose proof (CloneCommand_writes s ctx remoteURL tmpPath w2) as C2.
  cbv zeta in C1, C2.
  rewrite H1 in C1. rewrite H2 in C2. cbn [fst snd] in C1, C2.
  destruct C1 as [file1 C1], C2 as [file2 C2].
  rewrite Hok1 in C1. rewrite Hok2 in C2.
  exists file1, file2. by destruct C1, C2.
Qed.

(** C2.  The incremental update of the artifact-derived strategy,
    [MavenArtifactSyncer.Fetch], returns [nil] for every context, remote
    URL and directory, and does nothing to the destination: it makes no
    call at all, so the world is left as it was. *)
Theorem Fetch_is_a_noop (s : MavenArtifactSyncer) (ctx : Context)
    (remoteURL : URL) (dir : GitDir) (w : W) :
  result E (Fetch s ctx remoteURL dir) w = None ∧
  final E (Fetch s ctx remoteURL dir) w = w ∧
  calls E (Fetch s ctx remoteURL dir) w = [].
Proof. done. Qed.

(** C8.  [MavenArtifactSyncer.RemoteShowCommand] only builds the command
    [git remote show ./]: it returns it with a [nil] error for every
    context and remote URL, and it makes no call (no registry fetch, no
    command run, no file touched). *)
Theorem RemoteShowCommand_only_builds (s : MavenArtifactSyncer) (ctx : Context)
    (remoteURL : URL) (w : W) :
  result E (RemoteShowCommand s ctx remoteURL) w =
    (Some (exec_CommandContext ctx "git" ["remote"; "show"; "./"]), None) ∧
  cmd_Args (exec_CommandContext ctx "git" ["remote"; "show"; "./"]) =
    ["git"; "remote"; "show"; "./"] ∧
  final E (RemoteShowCommand s ctx remoteURL) w = w ∧
  calls E (RemoteShowCommand s ctx remoteURL) w = [].
Proof. done. Qed.

(** C5.  [MavenArtifactSyncer.IsCloneable] returns [nil] exactly when the
    registry, asked for the sources of the dependency decomposed from the
    URL's path, answers without error and with at least one source.  Its
    only calls are one log line and that one registry fetch: it runs no
    command, creates no file and writes no bytes, and the world it leaves
    is the one the registry fetch left. *)
Theorem IsCloneable_probes_registry (s : MavenArtifactSyncer) (ctx : Context)
    (remoteURL : URL) (w : W) :
  let dependency := DecomposeMavenPath (url_Path remoteURL) in
  let line := log15_Info "Maven.IsCloneable"
                ["dependency"; dependency; "url"; url_Path remoteURL] in
  let fetch := coursier_FetchSources ctx (Config s) dependency in
  let answer := handle E fetch (handle E line w).2 in
  (result E (IsCloneable s ctx remoteURL) w = None ↔
     answer.1.2 = None ∧ answer.1.1 ≠ []) ∧
  calls E (IsCloneable s ctx remoteURL) w =
    [Called line (handle E line w).1; Called fetch answer.1] ∧
  writes (calls E (IsCloneable s ctx remoteURL) w) = [] ∧
  final E (IsCloneable s ctx remoteURL) w = answer.2.
Proof.
  cbv zeta. unfold result, final, calls, IsCloneable, mbind, Prog_bind, trigger.
  simpl.
  destruct (handle E (log15_Info _ _) w) as [u w1]; simpl.
  destruct (handle E (coursier_FetchSources _ _ _) w1) as [[sources [e|]] w2]; simpl.
  { split; [|done]. split; [done | by intros [? _]]. }
  destruct sources as [|src rest]; simpl.
  - split; [|done]. split; [done | by intros [_ ?]].
  - split; [|done]. split; [done | by intros _].
Qed.



End SyncerFacts.

(** *** On the reference environment *)

Section SyncerExamples.
#[local] Existing Instance example_platform.
Import Example.

Example clone_reliable_journal :
  (clone reliable).1.2 =
    materialize_steps tt tmpPath "junit:junit:4.13.2"
      "/cache/junit:junit:4.13.2-sources.jar" 2.
Proof. reflexivity. Qed.

(** A second call on the world the first one left goes through the same
    six steps again; only the file handle differs. *)
Example clone_again :
  let again := run (journal reliable) (CloneCommand syncer tt remoteURL tmpPath)
                 (clone reliable).1.2 in
  again.1.1.2 = None ∧
  writes again.2 =
    materialize_steps tt tmpPath "junit:junit:4.13.2"
      "/cache/junit:junit:4.13.2-sources.jar" 8.
Proof. split; reflexivity. Qed.

Example clone_metadata :
  (json_Marshal {| Kind := "maven"; Jvm := "8";
                   Dependencies := ["junit:junit:4.13.2"] |}).1 =
  "{" +:+ dquote +:+ "kind" +:+ dquote +:+ ":" +:+ dquote +:+ "maven" +:+ dquote +:+
  "," +:+ dquote +:+ "jvm" +:+ dquote +:+ ":" +:+ dquote +:+ "8" +:+ dquote +:+
  "," +:+ dquote +:+ "dependencies" +:+ dquote +:+ ":[" +:+
  dquote +:+ "junit:junit:4.13.2" +:+ dquote +:+ "]}".
Proof. reflexivity. Qed.




End SyncerExamples.

(** ** Gauge functions *)

Section MetricsFacts.
Import Metrics.

Lemma scanCount_answer (db : DB) (sql : string) :
  scanCount db sql =
  match QueryRow_int64 db sql with
  | RowErr e => (0%float, Some e)
  | RowNull => (0%float, Some (External "converting NULL to int64 is unsupported"))
  | RowVal count => (float64_of_int64 count, None)
  end.
Proof. unfold scanCount. by destruct (QueryRow_int64 db sql). Qed.

Lemma scanNullFloat_answer (db : DB) (q : string) :
  scanNullFloat db q =
  match QueryRow_float64 db q with
  | RowErr e => (mkNullFloat64 0%float false, Some e)
  | RowNull => (mkNullFloat64 0%float false, None)
  | RowVal x => (mkNullFloat64 x true, None)
  end.
Proof. unfold scanNullFloat. by destruct (QueryRow_float64 db q). Qed.

Ltac count_gauge :=
  unfold reads, shown, no_value; cbn [function fst snd];
  match goal with
  | |- context [scanCount ?db ?sql] =>
      rewrite (scanCount_answer db sql); destruct (QueryRow_int64 db sql)
  | |- context [scanNullFloat ?db ?q] =>
      rewrite (scanNullFloat_answer db q); destruct (QueryRow_float64 db q)
  end;
  (split; [reflexivity | intros [[? ?] | ?]; (reflexivity || discriminate)]).

Ltac each_gauge :=
  lazymatch goal with
  | |- Forall2 _ [] [] => constructor
  | |- Forall2 _ (_ :: _) (_ :: _) => constructor; [| each_gauge]
  end.

(** C10.  Each of the eight gauge functions that [MustRegisterMetrics]
    registers is a total function of the answer to its one query: it shows
    the count or the float the query returned, and it shows 0 when the
    query returned an error or [NULL]; no error leaves the function. *)
Theorem gauges_show_zero_without_value (db : DB) (sourcegraphDotCom : bool) :
  Forall2 (reads db) (MustRegisterMetrics db sourcegraphDotCom)
    (queries sourcegraphDotCom).
Proof.
  unfold MustRegisterMetrics, queries.
  each_gauge.
  - unfold external_services_total. count_gauge.
  - unfold user_external_services_total. count_gauge.
  - unfold user_repos_total. count_gauge.
  - unfold user_with_external_services_total. count_gauge.
  - unfold queued_sync_jobs_total. count_gauge.
  - unfold completed_sync_jobs_total. count_gauge.
  - unfold errored_sync_jobs_percentage. count_gauge.
  - unfold max_sync_backoff. count_gauge.
Qed.

End MetricsFacts.

(** ** Job store and scheduler *)

Local Close Scope string_scope.

Section SchedulerFacts.
Import Scheduler.

Lemma open_jobs_app (r : RepoID) (l1 l2 : list SyncJob) :
  open_jobs r (l1 ++ l2) = open_jobs r l1 ++ open_jobs r l2.
Proof. apply filter_app. Qed.

Lemma in_flight_false (r : RepoID) (l : list SyncJob) :
  in_flight r l = false ↔ open_jobs r l = [].
Proof.
  unfold in_flight. rewrite bool_decide_eq_false. split.
  - intros Hn. by destruct (decide (open_jobs r l = [])).
  - intros -> Hn. by apply Hn.
Qed.

Lemma in_flight_true (r : RepoID) (l : list SyncJob) :
  in_flight r l = true ↔ open_jobs r l ≠ [].
Proof. unfold in_flight. by rewrite bool_decide_eq_true. Qed.

Lemma open_jobs_started (r r' : RepoID) (now : Time) (trig : Trigger) :
  open_jobs r' [mkJob r now running (Some now) None None trig] =
  if decide (r = r') then [mkJob r now running (Some now) None None trig] else [].
Proof.
  unfold open_jobs. rewrite filter_cons, filter_nil. cbn.
  destruct (decide (r = r')) as [->|Hne].
  - by rewrite decide_True.
  - rewrite decide_False; [done | by intros [? _]].
Qed.

(** Closing a job never opens one. *)
Lemma open_jobs_finish (r : RepoID) (i : nat) (err : option ErrorKind)
    (now : Time) (j : SyncJob) (l : list SyncJob) :
  length (open_jobs r (<[i := finish err now j]> l)) ≤ length (open_jobs r l).
Proof.
  revert i. induction l as [|x l IH]; intros i; [done|].
  destruct i as [|i]; cbn [insert list_insert].
  - unfold open_jobs. rewrite !filter_cons.
    rewrite decide_False.
    + destruct (decide _); simpl; lia.
    + intros [_ Hopen]. unfold non_terminal, finish in Hopen. cbn in Hopen.
      by destruct err.
  - unfold open_jobs in *. rewrite !filter_cons.
    specialize (IH i). destruct (decide _); simpl; [apply le_n_S|]; exact IH.
Qed.

Lemma Begin_busy (repoID : RepoID) (trig : Trigger) (now : Time)
    (l : list SyncJob) :
  in_flight repoID l = true → Begin repoID trig now l = (inr AlreadyRunning, l).
Proof. intros Hf. unfold Begin. by rewrite Hf. Qed.

Lemma at_most_one_Begin (repoID : RepoID) (trig : Trigger) (now : Time)
    (l : list SyncJob) :
  at_most_one l → at_most_one (Begin repoID trig now l).2.
Proof.
  intros Hl r. unfold Begin.
  destruct (in_flight repoID l) eqn:Hf; cbn [snd]; [apply Hl|].
  rewrite open_jobs_app, length_app, open_jobs_started.
  destruct (decide (repoID = r)) as [->|Hne]; simpl.
  - apply in_flight_false in Hf. rewrite Hf. simpl. lia.
  - specialize (Hl r). lia.
Qed.

Lemma at_most_one_Complete (jobID : nat) (err : option ErrorKind) (now : Time)
    (l : list SyncJob) :
  at_most_one l → at_most_one (Complete jobID err now l).
Proof.
  intros Hl r. unfold Complete.
  destruct (l !! jobID) as [j|]; [|apply Hl].
  destruct (non_terminal j); [|apply Hl].
  pose proof (open_jobs_finish r jobID err now j l). specialize (Hl r). lia.
Qed.

Lemma at_most_one_step (p : Policy) (s : State) (c : Call) :
  at_most_one (jobs s) → at_most_one (jobs (step p s c)).
Proof.
  intros Hs. destruct c as [repo | r now | now | jobID err now | r | r trig now
                           | jobID err now]; cbn [step].
  - unfold Register. by destruct (known s !! repo_id repo).
  - unfold RequestImmediateSync. by destruct (in_flight r (jobs s)).
  - unfold Tick. destruct (best (live now (queue s))) as [e|]; [|done].
    destruct (in_flight (entry_repo e) (jobs s)) eqn:Hf; cbn [jobs]; [done|].
    by apply at_most_one_Begin.
  - unfold RecordOutcome. destruct (jobs s !! jobID) as [j|]; [|done].
    destruct (non_terminal j); [|done].
    destruct (known s !! target j); cbn [jobs]; by apply at_most_one_Complete.
  - done.
  - by apply at_most_one_Begin.
  - by apply at_most_one_Complete.
Qed.

Lemma at_most_one_after (p : Policy) (cs : list Call) :
  at_most_one (jobs (after p cs)).
Proof.
  induction cs as [|c cs IH] using rev_ind.
  - intros r. cbn. lia.
  - unfold after in *. rewrite foldl_app. cbn [foldl].
    by apply at_most_one_step.
Qed.

(** C1.  In every state reached by a sequence of calls to [Register],
    [RequestImmediateSync], [Tick], [RecordOutcome], [Deregister],
    [Begin] and [Complete], every repository has at most one job that is
    queued or running.  Of two [Begin] calls for one repository with
    nothing in between, the second is always rejected with
    [AlreadyRunning], so they never both succeed; when they race for a
    repository that has no job in flight, the first is given a job ID:
    exactly one succeeds. *)
Theorem at_most_one_in_flight (p : Policy) (cs : list Call) (r : RepoID)
    (trig1 trig2 : Trigger) (now1 now2 : Time) :
  let s := after p cs in
  let first := Begin r trig1 now1 (jobs s) in
  let second := Begin r trig2 now2 first.2 in
  length (open_jobs r (jobs s)) ≤ 1 ∧
  second.1 = inr AlreadyRunning ∧
  length (open_jobs r second.2) ≤ 1 ∧
  (in_flight r (jobs s) = false →
     first.1 = inl (length (jobs s)) ∧ length (open_jobs r second.2) = 1) ∧
  (in_flight r (jobs s) = true → first.1 = inr AlreadyRunning).
Proof.
  intros s first second. subst first second.
  pose proof (at_most_one_after p cs) as Hs. fold s in Hs.
  split; [apply Hs|].
  assert (Hf : in_flight r (Begin r trig1 now1 (jobs s)).2 = true).
  { unfold Begin. destruct (in_flight r (jobs s)) eqn:Hf; cbn [snd]; [done|].
    apply in_flight_true. rewrite open_jobs_app, open_jobs_started.
    rewrite decide_True by done. by destruct (open_jobs r (jobs s)). }
  assert (Hidle : in_flight r (jobs s) = false →
            open_jobs r (Begin r trig1 now1 (jobs s)).2 =
              [mkJob r now1 running (Some now1) None None trig1] ∧
            (Begin r trig1 now1 (jobs s)).1 = inl (length (jobs s))).
  { intros Hidle. unfold Begin. rewrite Hidle. cbn [fst snd].
    rewrite open_jobs_app, open_jobs_started, decide_True by done.
    apply in_flight_false in Hidle. by rewrite Hidle. }
  rewrite (Begin_busy r trig2 now2 _ Hf). cbn [fst snd].
  split; [done|]. split; [|split].
  - by apply at_most_one_Begin.
  - intros Hi. destruct (Hidle Hi) as [Hopen Hid]. by rewrite Hopen.
  - intros Hbusy. by rewrite Begin_busy.
Qed.

Lemma backoff_mono (p : Policy) (n m : nat) :
  n ≤ m → (backoff p n ≤ backoff p m)%N.
Proof.
  intros Hnm. unfold backoff.
  apply N.min_le_compat_l, N.mul_le_mono_l, N.pow_le_mono_r; lia.
Qed.

Lemma backoff_capped (p : Policy) (n : nat) :
  (backoff p n ≤ max_interval p)%N.
Proof. unfold backoff. apply N.le_min_l. Qed.

Lemma delay_settle (p : Policy) (err : option ErrorKind) (now : Time)
    (r : Repository) :
  delay now (settle p err now r) =
  match err with
  | None => steady_interval p
  | Some _ => backoff p (S (failures r))
  end.
Proof. unfold delay, settle. destruct err; cbn; lia. Qed.

Lemma replay_snoc (p : Policy) (r : Repository)
    (outcomes : list (option ErrorKind * Time)) (o : option ErrorKind * Time) :
  replay p r (outcomes ++ [o]) = settle p o.1 o.2 (replay p r outcomes).
Proof. unfold replay. by rewrite foldl_app. Qed.

Lemma replay_failures (p : Policy) (r : Repository) (errs : list (ErrorKind * Time)) :
  failures (replay p r ((λ o, (Some o.1, o.2)) <$> errs)) = failures r + length errs.
Proof.
  induction errs as [|o errs IH] using rev_ind; [cbn; lia|].
  rewrite fmap_snoc, replay_snoc, length_app. cbn [settle failures fst snd length].
  rewrite IH. lia.
Qed.

(** C7.  The delay computed after [N] consecutive failures is
    [backoff p N]: it does not decrease when [N] grows and never exceeds
    the maximum interval.  One success sets the failure counter to 0, and
    the delay computed by it is the steady-state interval.
    [RecordOutcome] applies exactly this to the known-set entry of the
    job's repository. *)
Theorem backoff_monotone_capped_reset (p : Policy) :
  (∀ n m : nat, n ≤ m → (backoff p n ≤ backoff p m)%N) ∧
  (∀ n : nat, (backoff p n ≤ max_interval p)%N) ∧
  (∀ (r : Repository) (now0 : Time) (errs : list (ErrorKind * Time))
     (e : ErrorKind) (now : Time),
     let r' := replay p (settle p None now0 r)
                 ((λ o, (Some o.1, o.2)) <$> (errs ++ [(e, now)])) in
     failures r' = S (length errs) ∧
     delay now r' = backoff p (S (length errs))) ∧
  (∀ (r : Repository) (now : Time),
     failures (settle p None now r) = 0 ∧
     delay now (settle p None now r) = steady_interval p) ∧
  (∀ (s : State) (jobID : nat) (j : SyncJob) (r : Repository)
     (err : option ErrorKind) (now : Time),
     jobs s !! jobID = Some j → non_terminal j = true →
     known s !! target j = Some r →
     known (RecordOutcome p jobID err now s) !! target j =
       Some (settle p err now r)).
Proof.
  split; [apply backoff_mono|]. split; [apply backoff_capped|].
  split; [|split].
  - intros r now0 errs e now r'. subst r'.
    rewrite fmap_snoc, replay_snoc. cbn [fst snd].
    rewrite delay_settle. cbn [settle failures].
    rewrite replay_failures. cbn [settle failures]. done.
  - intros r now. by rewrite delay_settle.
  - intros s jobID j r err now Hj Hopen Hr. unfold RecordOutcome.
    rewrite Hj, Hopen, Hr. cbn [known]. apply lookup_insert_eq.
Qed.

End SchedulerFacts.

(** ** Purge worker *)

Section PurgeFacts.
Import Metrics Purge.

Lemma value_Inc (m : Metric) (reg : gmap string N) :
  value m (Inc m reg) = (value m reg + 1)%N.
Proof. unfold value at 1, Inc. by rewrite lookup_insert_eq. Qed.

Lemma value_Inc_other (m m' : Metric) (reg : gmap string N) :
  Name m ≠ Name m' → value m' (Inc m reg) = value m' reg.
Proof. intros Hne. unfold value, Inc. by rewrite lookup_insert_ne. Qed.

Lemma purge_names_differ : Name purgeSuccess ≠ Name purgeFailed.
Proof. discriminate. Qed.

Lemma remove_clone_counts (removes : nat → bool) (w : World) (r : nat) :
  let w' := remove_clone removes w r in
  if removes r
  then value purgeSuccess (counters w') = (value purgeSuccess (counters w) + 1)%N ∧
       value purgeFailed (counters w') = value purgeFailed (counters w) ∧
       disk w' = disk w ∖ {[r]}
  else value purgeFailed (counters w') = (value purgeFailed (counters w) + 1)%N ∧
       value purgeSuccess (counters w') = value purgeSuccess (counters w) ∧
       disk w' = disk w.
Proof.
  cbv zeta. unfold remove_clone. destruct (removes r); cbn [counters disk].
  - rewrite value_Inc, value_Inc_other; [done | apply purge_names_differ].
  - rewrite value_Inc, value_Inc_other; [done|].
    intros Heq. by apply purge_names_differ.
Qed.

Lemma foldl_remove_clone (removes : nat → bool) (l : list nat) (w : World) :
  let w' := foldl (remove_clone removes) w l in
  value purgeSuccess (counters w') =
    (value purgeSuccess (counters w) +
     N.of_nat (length (filter (λ r, removes r = true) l)))%N ∧
  value purgeFailed (counters w') =
    (value purgeFailed (counters w) +
     N.of_nat (length (filter (λ r, removes r = false) l)))%N ∧
  disk w' = disk w ∖ list_to_set (filter (λ r, removes r = true) l).
Proof.
  cbv zeta. revert w. induction l as [|r l IH]; intros w; cbn [foldl].
  - rewrite !filter_nil. cbn. rewrite !N.add_0_r. split; [done|]. split; [done|].
    by rewrite difference_empty_L.
  - destruct (IH (remove_clone removes w r)) as (Hs & Hf & Hd).
    rewrite Hs, Hf, Hd. clear IH Hs Hf Hd.
    pose proof (remove_clone_counts removes w r) as H1. cbv zeta in H1.
    rewrite !filter_cons.
    destruct (removes r) eqn:Hr.
    + destruct H1 as (-> & -> & ->).
      rewrite decide_True by done. rewrite decide_False by done.
      cbn [length list_to_set]. split; [lia|]. split; [done|].
      by rewrite difference_difference_l_L.
    + destruct H1 as (-> & -> & ->).
      rewrite decide_False by done. rewrite decide_True by done.
      cbn [length]. split; [done|]. split; [lia | done].
Qed.

(** C9.  The purge keeps two counters with different names.  Removing one
    clone adds exactly 1 to [purgeSuccess] and nothing to [purgeFailed];
    failing to remove one adds exactly 1 to [purgeFailed] and nothing to
    [purgeSuccess].  A sweep goes through all its orphans whether or not
    removals fail: afterwards [purgeSuccess] has grown by the number of
    orphans removed, [purgeFailed] by the number of orphans whose removal
    failed, these two numbers add up to the number of orphans, every
    orphan that could be removed is gone and the others are still there. *)
Theorem purge_outcomes_counted (removes : nat → bool) (known : gset nat)
    (busy : nat → bool) (w : World) :
  let os := orphans (elements (disk w)) known busy in
  let removed := filter (λ r, removes r = true) os in
  let failed := filter (λ r, removes r = false) os in
  let w' := sweep removes known busy w in
  Name purgeSuccess ≠ Name purgeFailed ∧
  (∀ (w0 : World) (r : nat), removes r = true →
     value purgeSuccess (counters (remove_clone removes w0 r)) =
       (value purgeSuccess (counters w0) + 1)%N ∧
     value purgeFailed (counters (remove_clone removes w0 r)) =
       value purgeFailed (counters w0)) ∧
  (∀ (w0 : World) (r : nat), removes r = false →
     value purgeFailed (counters (remove_clone removes w0 r)) =
       (value purgeFailed (counters w0) + 1)%N ∧
     value purgeSuccess (counters (remove_clone removes w0 r)) =
       value purgeSuccess (counters w0)) ∧
  value purgeSuccess (counters w') =
    (value purgeSuccess (counters w) + N.of_nat (length removed))%N ∧
  value purgeFailed (counters w') =
    (value purgeFailed (counters w) + N.of_nat (length failed))%N ∧
  length removed + length failed = length os ∧
  disk w' = disk w ∖ list_to_set removed.
Proof.
  intros os removed failed w'. subst removed failed w'. unfold sweep. fold os.
  split; [apply purge_names_differ|].
  split; [|split].
  - intros w0 r Hr. pose proof (remove_clone_counts removes w0 r) as H1.
    cbv zeta in H1. rewrite Hr in H1. by destruct H1 as (? & ? & _).
  - intros w0 r Hr. pose proof (remove_clone_counts removes w0 r) as H1.
    cbv zeta in H1. rewrite Hr in H1. by destruct H1 as (? & ? & _).
  - destruct (foldl_remove_clone removes os w) as (Hs & Hf & Hd).
    split; [done|]. split; [done|]. split; [|done].
    clear. induction os as [|r l IH]; [done|].
    rewrite !filter_cons. destruct (removes r).
    + rewrite decide_True by done. rewrite decide_False by done. cbn. lia.
    + rewrite decide_False by done. rewrite decide_True by done. cbn. lia.
Qed.

End PurgeFacts.

(** ** Examples and instances *)

Section SchedulerExamples.
Import Scheduler.

(** Manual demand is served before an earlier automatic entry. *)
Example manual_first :
  best (live 10 [mkEntry 2 9 auto; mkEntry 1 10 manual]) = Some (mkEntry 1 10 manual).
Proof. reflexivity. Qed.

(** Register, dispatch, fail once: one failure, due after the base
    interval. *)
Example first_failure :
  let s := after example_policy
             [CallRegister R1; CallTick 100; CallRecordOutcome 0 (Some Unreachable) 130] in
  (state <$> jobs s) = [errored] ∧
  (failures <$> known s !! 1) = Some 1 ∧
  (backoff_deadline <$> known s !! 1) = Some 190%N ∧
  queue s = [mkEntry 1 190 auto].
Proof. vm_compute. done. Qed.

(** A request for a repository whose job is running is turned down. *)
Example request_while_running :
  let s := after example_policy [CallRegister R1; CallTick 100] in
  (state <$> jobs s) = [running] ∧
  RequestImmediateSync 1 101 s = (Some AlreadySyncing, s).
Proof. vm_compute. done. Qed.

Example backoff_values :
  backoff example_policy <$> [1; 2; 3; 6; 7; 8; 20] =
  [60; 120; 240; 1920; 3600; 3600; 3600]%N.
Proof. reflexivity. Qed.

Lemma at_most_one_in_flight_witness :
  let s := after example_policy [CallRegister R1] in
  (Begin 1 auto 5 (jobs s)).1 = inl (length (jobs s)) ∧
  length (open_jobs 1 (Begin 1 manual 6 (Begin 1 auto 5 (jobs s)).2).2) = 1.
Proof.
  destruct (at_most_one_in_flight example_policy [CallRegister R1] 1 auto manual 5 6)
    as (_ & _ & _ & Hidle & _).
  apply Hidle. reflexivity.
Defined.

Lemma backoff_monotone_capped_reset_witness :
  (backoff example_policy 3 ≤ backoff example_policy 9)%N ∧
  known (RecordOutcome example_policy 0 None 130
           (after example_policy [CallRegister R1; CallTick 100])) !! 1 =
    Some (settle example_policy None 130 R1).
Proof.
  destruct (backoff_monotone_capped_reset example_policy) as (Hmono & _ & _ & _ & Hrec).
  split.
  - apply Hmono. lia.
  - apply (Hrec (after example_policy [CallRegister R1; CallTick 100]) 0
             (mkJob 1 100 running (Some 100%N) None None auto) R1 None 130%N);
      reflexivity.
Defined.

End SchedulerExamples.

Section PurgeExamples.
Import Metrics Purge.

Example sweep_example :
  let w := sweep example_removes {[1]} (λ _, false) example_world in
  value purgeSuccess (counters w) = 1%N ∧
  value purgeFailed (counters w) = 1%N ∧
  disk w = {[1; 2]}.
Proof. repeat split; reflexivity. Qed.

Lemma purge_outcomes_counted_witness :
  value purgeFailed (counters (remove_clone example_removes example_world 2)) =
    (value purgeFailed (counters example_world) + 1)%N ∧
  value purgeSuccess (counters (remove_clone example_removes example_world 2)) =
    value purgeSuccess (counters example_world).
Proof.
  destruct (purge_outcomes_counted example_removes {[1]} (λ _, false) example_world)
    as (_ & _ & Hfail & _).
  apply Hfail. reflexivity.
Defined.

End PurgeExamples.

Section MetricsExamples.
Import Metrics.

Example gauges_when_down :
  (λ g, (function g tt).1) <$> MustRegisterMetrics db_down true =
  replicate 8 0%float.
Proof. reflexivity. Qed.

Example gauges_when_fresh :
  (λ g, (function g tt).1) <$> MustRegisterMetrics db_fresh false =
  replicate 6 7%float ++ replicate 2 0%float.
Proof. reflexivity. Qed.

Lemma gauges_show_zero_without_value_witness :
  (external_services_total db_down tt).1 = 0%float ∧
  (max_sync_backoff db_fresh false tt).1 = 0%float.
Proof.
  split.
  - pose proof (Forall2_lookup_lr _ _ _ 0 _ _
                  (gauges_show_zero_without_value db_down false) eq_refl eq_refl)
      as [_ Hzero].
    apply Hzero. left. by eexists.
  - pose proof (Forall2_lookup_lr _ _ _ 7 _ _
                  (gauges_show_zero_without_value db_fresh false) eq_refl eq_refl)
      as [_ Hzero].
    apply Hzero. by right.
Defined.

End MetricsExamples.

(** ** The frontend command *)

Section CliFacts.
Import Cli.
Local Open Scope string_scope.

Lemma append_empty_r (s : string) : s +:+ EmptyString = s.
Proof.
  induction s as [|c s IH]; [done|].
  change (String c (s +:+ EmptyString) = String c s). by f_equal.
Qed.

Lemma prefix_split (p s : string) :
  String.prefix p s = true → ∃ rest, s = p +:+ rest.
Proof.
  revert s. induction p as [|c p IH]; intros s Hp.
  - by exists s.
  - destruct s as [|d s]; [done|]. cbn in Hp.
    destruct (Ascii.ascii_dec c d) as [->|]; [|done].
    destruct (IH s Hp) as [rest ->]. by exists rest.
Qed.

(** Without an occurrence of [old] nothing is replaced. *)
Lemma replace_from_absent (old new s : string) :
  (∀ a b, s ≠ a +:+ old +:+ b) → replace_from old new s 0 = s.
Proof.
  induction s as [|c s IH]; intros Hno; [done|]. cbn [replace_from].
  destruct (String.prefix old (String c s)) eqn:Hp.
  - destruct (prefix_split _ _ Hp) as [rest Hrest].
    by destruct (Hno EmptyString rest).
  - rewrite IH; [done|]. intros a b ->. by destruct (Hno (String c a) b).
Qed.

(** X1.  With no app URL configured, [configureAppURL] parses
    [http://] followed by the listen address, with [127.0.0.1] in front
    when the address is only a port; the package variable holds that text
    afterwards, and the URL or the error of [url.Parse] is returned. *)
Theorem configureAppURL_default (url_Parse : string → URL + error) (v : Vars) :
  appURL v = EmptyString →
  let hostPort :=
    if HasPrefix (httpAddr v) ":" then "127.0.0.1" +:+ httpAddr v else httpAddr v in
  let r := configureAppURL url_Parse v in
  appURL r.2 = "http://" +:+ hostPort ∧
  httpAddr r.2 = httpAddr v ∧
  r.1 = match url_Parse ("http://" +:+ hostPort) with
        | inl u => (Some u, None)
        | inr err => (None, Some err)
        end.
Proof.
  intros Hempty hostPort r. subst r. unfold configureAppURL.
  rewrite decide_True by done. fold hostPort. cbn [appURL set_appURL].
  assert (Hr : Replace_all "http://<http-addr>" "<http-addr>" hostPort =
               "http://" +:+ hostPort).
  { change (Replace_all "http://<http-addr>" "<http-addr>" hostPort)
      with ("http://" +:+ (hostPort +:+ EmptyString)).
    by rewrite append_empty_r. }
  rewrite Hr. by destruct (url_Parse _).
Qed.

(** X2.  An app URL that is configured and does not contain the
    placeholder [<http-addr>] is parsed as it is, whatever the listen
    address. *)
Theorem configureAppURL_verbatim (url_Parse : string → URL + error) (v : Vars) :
  appURL v ≠ EmptyString →
  (∀ a b, appURL v ≠ a +:+ "<http-addr>" +:+ b) →
  let r := configureAppURL url_Parse v in
  r.2 = v ∧
  r.1 = match url_Parse (appURL v) with
        | inl u => (Some u, None)
        | inr err => (None, Some err)
        end.
Proof.
  intros Hne Hno r. subst r. unfold configureAppURL.
  rewrite decide_False by done. unfold Replace_all.
  rewrite replace_from_absent by done.
  assert (Hv : set_appURL v (appURL v) = v) by by destruct v.
  rewrite Hv. by destruct (url_Parse _).
Qed.

Lemma prefix_app_l (p s : string) : String.prefix p (p +:+ s) = true.
Proof.
  induction p as [|c p IH]; [by destruct s|].
  change (String.prefix (String c p) (String c (p +:+ s)) = true). cbn.
  by destruct (Ascii.ascii_dec c c).
Qed.

Lemma Contains_false (s old : string) :
  Contains s old = false → ∀ a b, s ≠ a +:+ old +:+ b.
Proof.
  intros Hc a. revert s Hc. induction a as [|c a IH]; intros s Hc b ->.
  - change (EmptyString +:+ old +:+ b) with (old +:+ b) in Hc.
    destruct (old +:+ b) eqn:Hs; cbn [Contains] in Hc;
      rewrite <- Hs, prefix_app_l in Hc; done.
  - change (String c a +:+ old +:+ b) with (String c (a +:+ old +:+ b)) in Hc.
    cbn [Contains] in Hc. apply orb_false_elim in Hc as [_ Hc].
    by apply (IH _ Hc b).
Qed.

Lemma configureAppURL_default_witness :
  appURL (configureAppURL example_Parse example_vars).2 = "http://127.0.0.1:3080" ∧
  httpAddr (configureAppURL example_Parse example_vars).2 = ":3080" ∧
  (configureAppURL example_Parse example_vars).1 =
    (Some (mkURL "http" "127.0.0.1:3080" EmptyString), None).
Proof. apply (configureAppURL_default example_Parse example_vars). reflexivity. Defined.

Lemma configureAppURL_verbatim_witness :
  let v := mkVars ":3080" "https://sourcegraph.example.com" "true" EmptyString in
  (configureAppURL example_Parse v).2 = v ∧
  (configureAppURL example_Parse v).1 =
    (Some (mkURL "https" "sourcegraph.example.com" EmptyString), None).
Proof.
  apply (configureAppURL_verbatim example_Parse
           (mkVars ":3080" "https://sourcegraph.example.com" "true" EmptyString)).
  - discriminate.
  - apply Contains_false. reflexivity.
Defined.

Lemma Get_SetHeader_eq (w : ResponseWriter) (key value : string) :
  Header_Get (resp_Header (SetHeader w key value)) key = value.
Proof.
  unfold Header_Get, SetHeader, Header_Set. cbn [resp_Header].
  by rewrite lookup_insert_eq.
Qed.

Lemma Get_SetHeader_ne (w : ResponseWriter) (key value key' : string) :
  String.eqb (CanonicalMIMEHeaderKey key) (CanonicalMIMEHeaderKey key') = false →
  Header_Get (resp_Header (SetHeader w key value)) key' =
  Header_Get (resp_Header w) key'.
Proof.
  intros Hne%String.eqb_neq.
  unfold Header_Get, SetHeader, Header_Set. cbn [resp_Header].
  by rewrite lookup_insert_ne.
Qed.

Lemma Get_WriteHeader (w : ResponseWriter) (code : nat) (key : string) :
  Header_Get (resp_Header (WriteHeader w code)) key =
  Header_Get (resp_Header w) key.
Proof. unfold WriteHeader. by destruct (resp_status w). Qed.

Lemma status_SetHeader (w : ResponseWriter) (key value : string) :
  resp_status (SetHeader w key value) = resp_status w.
Proof. done. Qed.

Lemma status_WriteHeader (w : ResponseWriter) (code : nat) :
  resp_status (WriteHeader w code) = Some (default code (resp_status w)).
Proof. by destruct w as [h [s|]]. Qed.

Ltac headers :=
  repeat first
    [ rewrite Get_SetHeader_eq
    | rewrite Get_SetHeader_ne by (vm_compute; reflexivity)
    | rewrite Get_WriteHeader
    | rewrite status_WriteHeader
    | rewrite status_SetHeader
    | match goal with
      | |- context [match ?x with inl _ => _ | inr _ => _ end] => destruct x
      | |- context [if ?b then _ else _] => destruct b
      end;
      cbn [negb andb orb fst snd] ];
  try done.

(** X3.  Whatever the request, the response that the wrapped handler
    receives (or, for a CORS preflight, the response that is sent) carries
    [X-Content-Type-Options: nosniff], [X-XSS-Protection: 1; mode=block]
    and [Cache-Control: no-cache, max-age=0]; a header of the same name
    that was set before is overwritten. *)
Theorem securityHeaders_always (url_Parse : string → URL + error) (v : Vars)
    (w : ResponseWriter) (r : Request) :
  let handed := securityHeaders url_Parse v (λ w _, w) w r in
  Header_Get (resp_Header handed) "X-Content-Type-Options" = "nosniff" ∧
  Header_Get (resp_Header handed) "X-XSS-Protection" = "1; mode=block" ∧
  Header_Get (resp_Header handed) "Cache-Control" = "no-cache, max-age=0".
Proof.
  cbv zeta. unfold securityHeaders. split; [|split]; headers.
Qed.

(** X4.  [X-Frame-Options: DENY] is set unless the path starts with
    [/.app/] or the referer parses to an [https] URL on [github.com]; in
    these two cases the header is left as it was. *)
Theorem securityHeaders_frame_options (url_Parse : string → URL + error)
    (v : Vars) (w : ResponseWriter) (r : Request) :
  let handed := securityHeaders url_Parse v (λ w _, w) w r in
  let from_github :=
    match url_Parse (Referer r) with
    | inl u => bool_decide (url_Scheme u = "https") &&
               bool_decide (url_Host u = "github.com")
    | inr _ => false
    end in
  Header_Get (resp_Header handed) "X-Frame-Options" =
    if HasPrefix (url_Path (req_URL r)) "/.app/" || from_github
    then Header_Get (resp_Header w) "X-Frame-Options"
    else "DENY".
Proof.
  cbv zeta. unfold securityHeaders.
  destruct (HasPrefix (url_Path (req_URL r)) "/.app/");
    destruct (url_Parse (Referer r)) as [u|e];
    try (destruct (bool_decide (url_Scheme u = "https"));
         destruct (bool_decide (url_Host u = "github.com")));
    cbn [negb andb orb]; headers.
Qed.

(** X5.  [Strict-Transport-Security: max-age=8640000] is set exactly when
    the setting [SG_ENABLE_HSTS] is one of [1], [t], [T], [TRUE], [true],
    [True]; with any other text, also one that is no boolean at all, the
    header is left as it was. *)
Theorem securityHeaders_hsts (url_Parse : string → URL + error)
    (v : Vars) (w : ResponseWriter) (r : Request) :
  let handed := securityHeaders url_Parse v (λ w _, w) w r in
  Header_Get (resp_Header handed) "Strict-Transport-Security" =
    if decide (enableHSTS v ∈ ["1"; "t"; "T"; "TRUE"; "true"; "True"])
    then "max-age=8640000"
    else Header_Get (resp_Header w) "Strict-Transport-Security".
Proof.
  cbv zeta.
  assert (Hb : (ParseBool (enableHSTS v)).1 =
               bool_decide (enableHSTS v ∈ ["1"; "t"; "T"; "TRUE"; "true"; "True"])).
  { unfold ParseBool. destruct (decide (enableHSTS v ∈ _)) as [Hin|Hout].
    - by rewrite bool_decide_eq_true_2.
    - rewrite bool_decide_eq_false_2 by done. by destruct (decide _). }
  unfold securityHeaders. rewrite Hb.
  destruct (decide (enableHSTS v ∈ _)) as [Hin|Hout];
    [rewrite bool_decide_eq_true_2 by done | rewrite bool_decide_eq_false_2 by done];
    headers.
Qed.

(** X6.  The wrapped handler is invoked on every request except a CORS
    preflight (a CORS origin is configured and the method is [OPTIONS]);
    it gets the request unchanged.  A preflight is answered with status
    200, unless a status was already written, with the allowed methods and
    headers, and the wrapped handler is not invoked.  The CORS headers are
    set exactly when a CORS origin is configured. *)
Theorem securityHeaders_cors (url_Parse : string → URL + error) (v : Vars)
    (next : Handler) (w : ResponseWriter) (r : Request) :
  let handed := securityHeaders url_Parse v (λ w _, w) w r in
  let cors := bool_decide (corsOrigin v ≠ EmptyString) in
  let preflight := cors && bool_decide (Method r = "OPTIONS") in
  securityHeaders url_Parse v next w r =
    (if preflight then handed else next handed r) ∧
  resp_status handed =
    (if preflight then Some (default StatusOK (resp_status w)) else resp_status w) ∧
  Header_Get (resp_Header handed) "Access-Control-Allow-Origin" =
    (if cors then corsOrigin v
     else Header_Get (resp_Header w) "Access-Control-Allow-Origin") ∧
  Header_Get (resp_Header handed) "Access-Control-Allow-Credentials" =
    (if cors then "true"
     else Header_Get (resp_Header w) "Access-Control-Allow-Credentials") ∧
  Header_Get (resp_Header handed) "Access-Control-Allow-Methods" =
    (if preflight then "GET, POST, OPTIONS"
     else Header_Get (resp_Header w) "Access-Control-Allow-Methods") ∧
  Header_Get (resp_Header handed) "Access-Control-Allow-Headers" =
    (if preflight then "X-Requested-With, X-Sourcegraph-Client, Content-Type"
     else Header_Get (resp_Header w) "Access-Control-Allow-Headers").
Proof.
  cbv zeta. unfold securityHeaders.
  destruct (decide (corsOrigin v ≠ EmptyString)) as [Hc|Hc];
    [rewrite (bool_decide_eq_true_2 _ Hc) | rewrite (bool_decide_eq_false_2 _ Hc)];
  (destruct (decide (Method r = "OPTIONS")) as [Hm|Hm];
    [rewrite (bool_decide_eq_true_2 _ Hm) | rewrite (bool_decide_eq_false_2 _ Hm)]);
  cbn [andb];
  (split; [done|]);
  (split; [headers|]);
  repeat split; headers.
Qed.

End CliFacts.

(** *** Servers *)

Section CliServerFacts.
Import Cli.
Local Open Scope string_scope.
Local Open Scope list_scope.

Lemma servers_created (s : httpServers) (hs : list Handler) :
  let s' := foldl (λ s h, (newServer s h).2) s hs in
  servers s' =
    servers s ++
    ((λ h, mkServer (match wrapper s with Some f => f h | None => h end)
             (75 * Second) (60 * Second)) <$> hs) ∧
  wrapper s' = wrapper s ∧ wg s' = wg s.
Proof.
  cbv zeta. revert s. induction hs as [|h hs IH]; intros s; cbn [foldl fmap list_fmap].
  - by rewrite app_nil_r.
  - destruct (IH (newServer s h).2) as (-> & -> & ->).
    unfold newServer. cbn [snd servers wrapper wg]. by rewrite <- app_assoc.
Qed.

(** X7.  A server gets the wrapper that is set when it is created:
    servers created before [SetWrapper] serve their handler as it is,
    servers created after it serve the wrapped handler.  Every server has
    a read timeout of 75 s and a write timeout of 60 s.  [Close] closes all
    servers created so far, in the order of creation, and forgets them: a
    second [Close] closes nothing. *)
Theorem httpServers_lifecycle (hs1 hs2 : list Handler) (f : Handler → Handler) :
  let fresh := mkServers 0 [] None in
  let create := foldl (λ s h, (newServer s h).2) in
  let s := create (SetWrapper (create fresh hs1) f) hs2 in
  (Close s).1 =
    ((λ h, mkServer h (75 * Second) (60 * Second)) <$> hs1) ++
    ((λ h, mkServer (f h) (75 * Second) (60 * Second)) <$> hs2) ∧
  servers (Close s).2 = [] ∧
  (Close (Close s).2).1 = [] ∧
  wrapper (Close s).2 = Some f.
Proof.
  cbv zeta.
  destruct (servers_created (mkServers 0 [] None) hs1) as (H1 & W1 & _).
  destruct (servers_created
              (SetWrapper (foldl (λ s h, (newServer s h).2) (mkServers 0 [] None) hs1) f)
              hs2) as (H2 & W2 & _).
  cbv zeta in *. unfold Close. cbn [fst snd servers wrapper].
  rewrite H2, W2. cbn [SetWrapper servers wrapper]. rewrite H1. done.
Qed.

End CliServerFacts.

(** ** More on the artifact-derived strategy *)

Section SyncerMoreFacts.
Context `{Platform} {W : Type} (E : Env W).
Local Open Scope string_scope.
Local Open Scope list_scope.

Lemma stops_at_cons (ev : Event) (tr : list Event) (e : error) :
  failure ev = None → stops_at tr e → stops_at (ev :: tr) e.
Proof.
  intros Hev (pre & ev' & post & -> & Hpre & He & Hpost).
  exists (ev :: pre), ev', post. split; [done|]. split; [|done].
  cbn [omap list_omap]. by rewrite Hev.
Qed.

Lemma stops_at_failure (tr : list Event) (e : error) :
  stops_at tr e → omap failure tr = [e].
Proof.
  intros (pre & ev & post & -> & Hpre & He & Hpost).
  rewrite omap_app, Hpre. cbn [omap list_omap app]. rewrite He. f_equal.
  induction Hpost as [|x post [f Hx] _ IH]; [done|].
  cbn [omap list_omap]. destruct x as [X e0 x]. 
  destruct e0; cbn in Hx |- *; try done.
Qed.

(** The shape of a run of [commitJar]: which files it closes, which call
    comes last, and where it stops. *)
Lemma commitJar_calls (s : MavenArtifactSyncer) (ctx : Context) (dir : GitDir)
    (workingDir dependency path : string) (w : W) :
  let r := run E (commitJar s ctx dir workingDir dependency path) w in
  omap closed_file r.2 = omap created_file (writes r.2) ∧
  (length (omap created_file (writes r.2)) ≤ 1)%nat ∧
  (∀ file, file ∈ omap created_file (writes r.2) →
     ∃ c, last r.2 = Some (Called (File_Close file) c)) ∧
  match r.1.1 with
  | None => omap failure r.2 = []
  | Some err => ∃ e, stops_at r.2 e ∧ Cause err = Cause e
  end.
Proof.
  cbv zeta. unfold commitJar, deferred_Close, mbind, Prog_bind, trigger. simpl.
  destruct (handle E (runWith _ _ _ _) w) as [[out1 [e1|]] w1]; simpl.
  { split; [done|]. split; [cbn; lia|]. split; [by intros file ?%elem_of_nil|].
    exists e1. split; [|done]. eexists [], _, []. by repeat split. }
  destruct (handle E (os_Create _) w1) as [[file [e2|]] w2]; simpl.
  { split; [done|]. split; [cbn; lia|]. split; [by intros f ?%elem_of_nil|].
    exists e2. split; [|done].
    eexists [_], _, []. by repeat split. }
  destruct (handle E (File_Write _ _) w2) as [[n3 [e3|]] w3]; simpl.
  { destruct (handle E (File_Close file) w3) as [c w4]; simpl.
    split; [done|]. split; [cbn; lia|]. split.
    { intros f ->%list_elem_of_singleton. by exists c. }
    exists e3. split; [|done].
    eexists [_; _], _, [_]. repeat split; try done. by repeat constructor. }
  destruct (handle E (runWith _ _ _ _) w3) as [[out4 [e4|]] w4]; simpl.
  { destruct (handle E (File_Close file) w4) as [c w5]; simpl.
    split; [done|]. split; [cbn; lia|]. split.
    { intros f ->%list_elem_of_singleton. by exists c. }
    exists e4. split; [|done].
    eexists [_; _; _], _, [_]. repeat split; try done. by repeat constructor. }
  destruct (handle E (runWith _ _ _ _) w4) as [[out5 [e5|]] w5]; simpl.
  { destruct (handle E (File_Close file) w5) as [c w6]; simpl.
    split; [done|]. split; [cbn; lia|]. split.
    { intros f ->%list_elem_of_singleton. by exists c. }
    exists e5. split; [|done].
    eexists [_; _; _; _], _, [_]. repeat split; try done. by repeat constructor. }
  destruct (handle E (File_Close file) w5) as [c w6]; simpl.
  split; [done|]. split; [cbn; lia|]. split; [|done].
  intros f ->%list_elem_of_singleton. by exists c.
Qed.

Lemma CloneCommand_calls (s : MavenArtifactSyncer) (ctx : Context)
    (remoteURL : URL) (tmpPath : string) (w : W) :
  let dependency := DecomposeMavenPath (url_Path remoteURL) in
  let r := run E (CloneCommand s ctx remoteURL tmpPath) w in
  omap closed_file r.2 = omap created_file (writes r.2) ∧
  (length (omap created_file (writes r.2)) ≤ 1)%nat ∧
  (∀ file, file ∈ omap created_file (writes r.2) →
     ∃ c, last r.2 = Some (Called (File_Close file) c)) ∧
  match r.1.1.2 with
  | None => omap failure r.2 = []
  | Some err =>
      (omap failure r.2 = [] ∧ writes r.2 = [] ∧
       err = Errorf "no sources.jar for dependency %s" [dependency]) ∨
      (∃ e, stops_at r.2 e ∧ Cause err = Cause e)
  end.
Proof.
  cbv zeta. unfold CloneCommand, mbind, Prog_bind, trigger.
  cbn -[commitJar].
  destruct (handle E (coursier_FetchSources _ _ _) w) as [[paths [e0|]] w0];
    cbn -[commitJar].
  { split; [done|]. split; [lia|]. split; [by intros f ?%elem_of_nil|].
    right. exists e0. split; [|done]. eexists [], _, []. by repeat split. }
  destruct paths as [|path rest]; cbn -[commitJar].
  { split; [done|]. split; [lia|]. split; [by intros f ?%elem_of_nil|]. by left. }
  destruct (handle E (log15_Info _ _) w0) as [[] w1]; cbn -[commitJar].
  destruct (handle E (runWith _ _ _ _) w1) as [[out [e1|]] w2]; cbn -[commitJar].
  { split; [done|]. split; [lia|]. split; [by intros f ?%elem_of_nil|].
    right. exists e1. split; [|done]. eexists [_; _], _, []. by repeat split. }
  rewrite run_bind. cbn -[commitJar].
  pose proof (commitJar_calls s ctx tmpPath (filepath_Dir tmpPath)
                (DecomposeMavenPath (url_Path remoteURL)) path w2) as Hc.
  cbv zeta in Hc. unfold writes in *.
  destruct (run E (commitJar _ _ _ _ _ _) w2) as [[err w3] tr]; cbn in *.
  rewrite app_nil_r. destruct Hc as (Hclose & Hlen & Hlast & Herr).
  split; [done|]. split; [done|]. split.
  { intros f Hf. destruct (Hlast f Hf) as [c Hc]. exists c.
    destruct tr as [|ev tr]; [done|]. by rewrite last_cons, Hc. }
  destruct err as [err|]; [|done].
  right. destruct Herr as (e & Hstop & Hcause). exists e. split; [|done].
  by repeat apply stops_at_cons.
Qed.

(** X8.  In every run of [CloneCommand], successful or not, each file that
    was created is closed, once, and no other file is closed; at most one
    file is created, and closing it is the last call of the run. *)
Theorem CloneCommand_closes_what_it_creates (s : MavenArtifactSyncer)
    (ctx : Context) (remoteURL : URL) (tmpPath : string) (w : W) :
  let tr := calls E (CloneCommand s ctx remoteURL tmpPath) w in
  omap closed_file tr = omap created_file (writes tr) ∧
  (length (omap created_file (writes tr)) ≤ 1)%nat ∧
  (∀ file, file ∈ omap created_file (writes tr) →
     ∃ c, last tr = Some (Called (File_Close file) c)).
Proof.
  cbv zeta. unfold calls.
  by destruct (CloneCommand_calls s ctx remoteURL tmpPath w) as (? & ? & ? & _).
Qed.

(** X9.  [CloneCommand] stops at the first call that fails.  When it
    returns an error, either the registry resolved no source (then no call
    failed, nothing was written and the error is the "no sources.jar"
    error), or exactly one of its calls failed, no call before that one
    failed, only the closing of the file follows it, and the error
    returned has the error of that call as its root cause.  When it
    returns no error, no call failed. *)
Theorem CloneCommand_stops_at_first_failure (s : MavenArtifactSyncer)
    (ctx : Context) (remoteURL : URL) (tmpPath : string) (w : W) :
  let dependency := DecomposeMavenPath (url_Path remoteURL) in
  let tr := calls E (CloneCommand s ctx remoteURL tmpPath) w in
  match (result E (CloneCommand s ctx remoteURL tmpPath) w).2 with
  | None => omap failure tr = []
  | Some err =>
      (omap failure tr = [] ∧ writes tr = [] ∧
       err = Errorf "no sources.jar for dependency %s" [dependency]) ∨
      (∃ e, stops_at tr e ∧ omap failure tr = [e] ∧ Cause err = Cause e)
  end.
Proof.
  cbv zeta. unfold calls, result.
  destruct (CloneCommand_calls s ctx remoteURL tmpPath w) as (_ & _ & _ & Herr).
  cbv zeta in Herr.
  destruct ((run E (CloneCommand s ctx remoteURL tmpPath) w).1.1.2) as [err|]; [|done].
  destruct Herr as [?|(e & Hstop & Hcause)]; [by left|right].
  exists e. split; [done|]. split; [by apply stops_at_failure | done].
Qed.

(** X10.  [IsCloneable] and [CloneCommand] agree on the registry.  When
    the registry gives [CloneCommand] the answer it gave [IsCloneable]:
    if [IsCloneable] returned an error, [CloneCommand] returns no command
    and the same error and writes nothing; if [IsCloneable] returned
    [nil], [CloneCommand] goes on to run [git init] in the directory of
    the temporary path. *)
Theorem IsCloneable_agrees_with_CloneCommand (s : MavenArtifactSyncer)
    (ctx : Context) (remoteURL : URL) (tmpPath : string) (w w' : W) :
  let dependency := DecomposeMavenPath (url_Path remoteURL) in
  let line := log15_Info "Maven.IsCloneable"
                ["dependency"; dependency; "url"; url_Path remoteURL] in
  let fetch := coursier_FetchSources ctx (Config s) dependency in
  (handle E fetch w').1 = (handle E fetch (handle E line w).2).1 →
  match result E (IsCloneable s ctx remoteURL) w with
  | Some err =>
      result E (CloneCommand s ctx remoteURL tmpPath) w' = (None, Some err) ∧
      writes (calls E (CloneCommand s ctx remoteURL tmpPath) w') = []
  | None =>
      ∃ answer,
        calls E (CloneCommand s ctx remoteURL tmpPath) w' !! 2 =
          Some (Called (runWith ctx (set_Dir (exec_CommandContext ctx "git" ["init"])
                                       (filepath_Dir tmpPath)) false None) answer)
  end.
Proof.
  cbv zeta. intros Hsame.
  unfold result, calls, IsCloneable, CloneCommand, mbind, Prog_bind, trigger.
  cbn -[commitJar].
  destruct (handle E (log15_Info _ _) w) as [u w1]. cbn [fst snd] in *.
  destruct (handle E (coursier_FetchSources _ _ _) w') as [a' w0'].
  destruct (handle E (coursier_FetchSources _ _ _) w1) as [a w2].
  cbn [fst snd] in *. subst a'.
  destruct a as [sources [e|]]; cbn -[commitJar]; [done|].
  destruct sources as [|path rest]; cbn -[commitJar]; [done|].
  destruct (handle E (log15_Info _ _) w0') as [[] w3]; cbn -[commitJar].
  destruct (handle E (runWith _ _ _ _) w3) as [[out [e1|]] w4]; cbn -[commitJar].
  - by eexists.
  - by eexists.
Qed.

End SyncerMoreFacts.

(** *** On the reference environment *)

Section SyncerMoreExamples.
#[local] Existing Instance example_platform.
Import Example.
Local Open Scope string_scope.
Local Open Scope list_scope.

Lemma IsCloneable_agrees_with_CloneCommand_witness :
  match result (journal reliable) (IsCloneable syncer tt remoteURL) [] with
  | Some err =>
      result (journal reliable) (CloneCommand syncer tt remoteURL tmpPath) [] =
        (None, Some err) ∧
      writes (calls (journal reliable) (CloneCommand syncer tt remoteURL tmpPath) []) = []
  | None =>
      ∃ answer,
        calls (journal reliable) (CloneCommand syncer tt remoteURL tmpPath) [] !! 2 =
          Some (Called (runWith tt (set_Dir (exec_CommandContext tt "git" ["init"])
                                      (filepath_Dir tmpPath)) false None) answer)
  end.
Proof.
  apply (IsCloneable_agrees_with_CloneCommand (journal reliable) syncer tt remoteURL
           tmpPath [] []).
  reflexivity.
Defined.

End SyncerMoreExamples.

(** ** Registration and logging of the gauges *)

Section RegistryFacts.
Import Metrics Registry.

Lemma register_all_None (names : list string) :
  foldl (λ acc name, acc ≫= register name) None names = None.
Proof. by induction names. Qed.

Lemma register_all_cons (name : string) (names : list string) (reg : gset string) :
  register_all (name :: names) reg =
  register name reg ≫= register_all names.
Proof.
  unfold register_all. cbn [foldl mbind option_bind].
  destruct (register name reg); [done | apply register_all_None].
Qed.

Lemma register_Some (name : string) (reg reg' : gset string) :
  register name reg = Some reg' → reg' = {[name]} ∪ reg.
Proof. unfold register. destruct (decide _); naive_solver. Qed.

(** After a successful run every name is registered, and what was
    registered before still is. *)
Lemma register_all_Some (names : list string) (reg reg' : gset string) :
  register_all names reg = Some reg' →
  reg ⊆ reg' ∧ ∀ name, name ∈ names → name ∈ reg'.
Proof.
  revert reg. induction names as [|n names IH]; intros reg Hr.
  - injection Hr as <-. split; [done|]. by intros name ?%elem_of_nil.
  - rewrite register_all_cons in Hr.
    destruct (register n reg) as [reg1|] eqn:Hn; [|done]. cbn in Hr.
    apply register_Some in Hn as ->.
    destruct (IH _ Hr) as [Hsub Hin]. split.
    + etrans; [apply union_subseteq_r | exact Hsub].
    + intros name [->|?]%elem_of_cons; [|by apply Hin].
      apply Hsub, elem_of_union_l. by apply elem_of_singleton.
Qed.

Lemma register_all_app (l1 l2 : list string) (reg : gset string) :
  register_all (l1 ++ l2) reg = register_all l1 reg ≫= register_all l2.
Proof.
  unfold register_all. rewrite foldl_app.
  destruct (foldl _ (Some reg) l1); [done | apply register_all_None].
Qed.

(** Names that differ from each other and from those registered can all
    be registered. *)
Lemma register_all_NoDup (names : list string) (reg : gset string) :
  NoDup names → (∀ name, name ∈ names → name ∉ reg) →
  is_Some (register_all names reg).
Proof.
  revert reg. induction names as [|n names IH]; intros reg Hnd Hfresh; [by eexists|].
  apply NoDup_cons in Hnd as [Hn Hnd]. rewrite register_all_cons.
  unfold register. rewrite decide_False by (apply Hfresh, elem_of_cons; by left).
  cbn. apply IH; [done|]. intros name Hin [->%elem_of_singleton|Hreg]%elem_of_union.
  - done.
  - apply (Hfresh name); [apply elem_of_cons; by right | done].
Qed.

(** X11.  After the package variables are registered, one call of
    [MustRegisterMetrics] registers its eight gauges without a panic,
    whatever the database and the flag.  A second call on the same
    registry panics, also with another database or flag: the first gauge
    is already registered.  So two calls in a row never both return. *)
Theorem MustRegisterMetrics_once (db1 db2 : DB) (dotcom1 dotcom2 : bool) :
  is_Some (init ≫= register_gauges db1 dotcom1) ∧
  (∀ reg : gset string,
     register_gauges db1 dotcom1 reg ≫= register_gauges db2 dotcom2 = None).
Proof.
  split.
  - unfold init, register_gauges. rewrite <- register_all_app.
    apply register_all_NoDup; [|by intros name _ ?%elem_of_empty].
    apply (bool_decide_unpack _). by vm_compute.
  - intros reg.
    destruct (register_gauges db1 dotcom1 reg) as [reg'|] eqn:Hfirst; [|done].
    cbn [mbind option_bind].
    apply register_all_Some in Hfirst as [_ Hin].
    unfold register_gauges.
    change (gauge_Name <$> MustRegisterMetrics db2 dotcom2)
      with (gauge_Name <$> MustRegisterMetrics db1 dotcom1).
    unfold MustRegisterMetrics at 1. cbn [fmap list_fmap gauge_Name].
    rewrite register_all_cons. unfold register at 1.
    rewrite decide_True; [done|].
    apply Hin. unfold MustRegisterMetrics. cbn [fmap list_fmap gauge_Name].
    apply elem_of_cons. by left.
Qed.



End RegistryFacts.

(** ** The post sign-up page *)

Section PostSignUpFacts.
Import PostSignUp.
Local Open Scope Z_scope.

(** A slice between non-negative indices holds the elements at the
    indices from [start] up to, not including, [stop]. *)
Lemma forallb_slice {A : Type} (f : A → bool) (xs : list A) (start stop : Z) :
  0 ≤ start → 0 ≤ stop →
  forallb f (slice xs start stop) = true ↔
  ∀ i x, start ≤ i < stop → at_index xs i = Some x → f x = true.
Proof.
  intros Hstart Hstop. unfold slice, at_index.
  rewrite forallb_forall.
  assert (Hs : (start <? 0) = false) by lia. rewrite Hs.
  set (len := Z.of_nat (length xs)).
  set (final := if stop <? 0 then Z.max (len + stop) 0 else Z.min stop len).
  split.
  - intros Hall i x Hi Hx.
    destruct (i <? 0) eqn:Hneg; [done|].
    apply Hall, list_elem_of_In, list_elem_of_lookup.
    assert (Hlt : (Z.to_nat i < length xs)%nat) by by eapply lookup_lt_Some.
    assert (Hnn : ¬ stop < 0) by lia.
    exists (Z.to_nat i - Z.to_nat (Z.min start len))%nat.
    rewrite lookup_take_lt.
    + rewrite lookup_drop. rewrite <- Hx. f_equal. lia.
    + subst final. destruct (stop <? 0) eqn:Hst; lia.
  - intros Hall x [j Hj]%list_elem_of_In%list_elem_of_lookup.
    apply lookup_take_Some in Hj as [Hj Hlt].
    rewrite lookup_drop in Hj.
    assert (Hlen : (Z.to_nat (Z.min start len) + j < length xs)%nat)
      by by eapply lookup_lt_Some.
    apply (Hall (Z.of_nat (Z.to_nat (Z.min start len) + j))).
    + subst final. destruct (stop <? 0) eqn:Hst; lia.
    + assert (Hnn : (Z.of_nat (Z.to_nat (Z.min start len) + j) <? 0) = false)
        by (apply Z.ltb_ge; lia).
      rewrite Hnn, Nat2Z.id. exact Hj.
Qed.

Lemma branch_forward (c n : Z) :
  c < n → branch c n = further_away.
Proof.
  intros Hlt. unfold branch.
  destruct (n =? c) eqn:H1; [lia|].
  destruct (n <? c) eqn:H2; [lia|].
  destruct (c - 1 =? n) eqn:H3; [lia | done].
Qed.

(** X13.  No click takes the branch of [onStepTabClick] that is meant
    for the next tab: a click on another tab is either backwards or is
    handled as a click further away.  On the three steps of the page a
    click on the next tab still does what that branch says: it moves
    exactly when the current step is complete. *)
Theorem next_tab_branch_is_dead (data : option Data) (c n : Z) :
  branch c n ≠ next_tab ∧
  (1 ≤ c ≤ 3 →
   onStepTabClick data c (c + 1) =
     if isCurrentStepComplete data c then c + 1 else c).
Proof.
  split.
  - unfold branch.
    destruct (n =? c) eqn:H1; [done|].
    destruct (n <? c) eqn:H2; [done|].
    destruct (c - 1 =? n) eqn:H3; [lia | done].
  - intros Hc. unfold onStepTabClick. rewrite branch_forward by lia.
    assert (Hcases : c = 1 ∨ c = 2 ∨ c = 3) by lia.
    destruct Hcases as [-> | [-> | ->]];
      unfold isCurrentStepComplete, currentStep, at_index, slice, steps;
      cbv -[connectCodeHosts isComplete];
      by destruct (isComplete (connectCodeHosts data)).
Qed.

(** X14.  A click on tab [n] from step [c ≥ 1] leads to [n] or leaves the
    step as it is.  It leads to [n] exactly when [n] is not after [c], or
    every step that exists from [c] up to, not including, [n] is
    complete. *)
Theorem onStepTabClick_moves_iff (data : option Data) (c n : Z) :
  1 ≤ c →
  (onStepTabClick data c n = n ∨ onStepTabClick data c n = c) ∧
  (onStepTabClick data c n = n ↔
   n ≤ c ∨ ∀ i step, c ≤ i < n → currentStep data i = Some step →
           isComplete step = true).
Proof.
  intros Hc. unfold onStepTabClick, branch.
  destruct (n =? c) eqn:H1.
  { split; [by right|]. split; [left; lia | lia]. }
  destruct (n <? c) eqn:H2.
  { split; [by left|]. split; [left; lia | done]. }
  destruct (c - 1 =? n) eqn:H3; [lia|].
  destruct (forallb isComplete (slice (steps data) (c - 1) (n - 1))) eqn:Hall.
  - split; [by left|]. split; [|done]. intros _. right.
    intros i step Hi Hstep.
    apply (proj1 (forallb_slice isComplete (steps data) (c - 1) (n - 1)
                    ltac:(lia) ltac:(lia)) Hall (i - 1)); [lia | done].
  - split; [by right|]. split; [lia|]. intros [?|Hsteps]; [lia|].
    assert (forallb isComplete (slice (steps data) (c - 1) (n - 1)) = true) as Ht;
      [|by rewrite Ht in Hall].
    apply forallb_slice; [lia | lia |].
    intros i step Hi Hstep. apply (Hsteps (i + 1)); [lia|].
    unfold currentStep. by replace (i + 1 - 1) with i by lia.
Qed.

Lemma last_step_incomplete (data : option Data) :
  isCurrentStepComplete data 3 = false.
Proof. reflexivity. Qed.

Lemma act_in_range (data : option Data) (c : Z) (a : Action) :
  1 ≤ c ≤ 3 → (∀ n, a = ClickTab n → 1 ≤ n ≤ 3) →
  match act data c a with
  | OnStep c' => 1 ≤ c' ≤ 3
  | ReturnedTo => a = ClickNotNow
  end.
Proof.
  intros Hc Htab.
  assert (Hcases : c = 1 ∨ c = 2 ∨ c = 3) by lia.
  destruct a as [n| | | |]; cbn [act].
  - specialize (Htab n eq_refl).
    destruct (onStepTabClick_moves_iff data c n ltac:(lia)) as [[->| ->] _]; lia.
  - destruct (isCurrentStepComplete data c) eqn:Hdone; cbn [negb]; [|lia].
    unfold isLastStep. cbn [steps length]. change (Z.of_nat 3) with 3.
    destruct (Z.eqb_spec c 3) as [->|Hne].
    + by rewrite last_step_incomplete in Hdone.
    + unfold goToNextTab. lia.
  - by destruct (negb (isLastStep data c)).
  - destruct (Z.eqb_spec c 1); lia.
  - cbn [steps length]. change (Z.of_nat 3) with 3.
    destruct (Z.eqb_spec c 3); unfold goToNextTab; lia.
Qed.

(** X15.  On a visit that starts on step 1, with clicks on the tabs 1 to
    3, the step number stays between 1 and 3, so the page always has a
    current step to render; and the visit leaves the page only through
    "Not right now": the button "Start searching" on the last step is
    always disabled. *)
Theorem visit_stays_on_steps (actions : list (option Data * Action)) :
  tabs_between 1 3 actions →
  match visit (OnStep 1) actions with
  | OnStep c => 1 ≤ c ≤ 3 ∧ is_Some (currentStep None c)
  | ReturnedTo => ∃ data, (data, ClickNotNow) ∈ actions
  end.
Proof.
  assert (Hgen : ∀ c, 1 ≤ c ≤ 3 → tabs_between 1 3 actions →
            match visit (OnStep c) actions with
            | OnStep c' => 1 ≤ c' ≤ 3
            | ReturnedTo => ∃ data, (data, ClickNotNow) ∈ actions
            end).
  { induction actions as [|[data a] actions IH]; intros c Hc Htabs; [done|].
    cbn [visit].
    pose proof (act_in_range data c a Hc) as Hact.
    destruct (act data c a) as [c'|].
    - assert (Hc' : 1 ≤ c' ≤ 3).
      { apply Hact. intros n ->. apply (Htabs data n), elem_of_cons. by left. }
      assert (Hrest : tabs_between 1 3 actions).
      { intros d n Hin. apply (Htabs d n), elem_of_cons. by right. }
      specialize (IH c' Hc' Hrest).
      destruct (visit (OnStep c') actions); [done|].
      destruct IH as [d Hd]. exists d. apply elem_of_cons. by right.
    - assert (a = ClickNotNow) as ->.
      { apply Hact. intros n ->. apply (Htabs data n), elem_of_cons. by left. }
      assert (visit ReturnedTo actions = ReturnedTo) as -> by by destruct actions as [|[]].
      exists data. apply elem_of_cons. by left. }
  intros Htabs. specialize (Hgen 1 ltac:(lia) Htabs).
  destruct (visit (OnStep 1) actions) as [c|]; [|done].
  split; [done|].
  assert (Hcases : c = 1 ∨ c = 2 ∨ c = 3) by lia.
  by destruct Hcases as [-> | [-> | ->]]; eexists.
Qed.

(** X16.  Without an external service the user cannot get past step 1 by
    a click on a tab or on "Continue"; with one, "Continue" on step 1
    leads to step 2.  "Continue" on step 2 always leads to step 3, and on
    step 3 it does nothing. *)
Theorem continue_button (data : option Data) (n : Z) :
  let connected := isComplete (connectCodeHosts data) in
  act data 1 ClickContinue = OnStep (if connected then 2 else 1) ∧
  act data 2 ClickContinue = OnStep 3 ∧
  act data 3 ClickContinue = OnStep 3 ∧
  (connected = false → 1 ≤ n → onStepTabClick data 1 n = 1).
Proof.
  cbv zeta. split; [|split; [done|split; [done|]]].
  - change (act data 1 ClickContinue)
      with (if negb (isComplete (connectCodeHosts data)) then OnStep 1 else OnStep 2).
    by destruct (isComplete (connectCodeHosts data)).
  - intros Hno Hn.
    destruct (onStepTabClick_moves_iff data 1 n ltac:(lia)) as [[Heq|Heq] Hiff]; [|done].
    apply Hiff in Heq as [?|Hall]; [lia|].
    destruct (decide (n = 1)) as [->|Hne]; [done|].
    specialize (Hall 1 (connectCodeHosts data) ltac:(lia) eq_refl). congruence.
Qed.

End PostSignUpFacts.

(** *** On a visit of a user with one code host *)

Section PostSignUpExamples.
Import PostSignUp.
Local Open Scope Z_scope.

Lemma onStepTabClick_moves_iff_witness :
  1 ≤ 1 ∧
  (onStepTabClick None 1 3 = 3 ∨ onStepTabClick None 1 3 = 1) ∧
  (onStepTabClick None 1 3 = 3 ↔
   3 ≤ 1 ∨ ∀ i step, 1 ≤ i < 3 → currentStep None i = Some step →
           isComplete step = true).
Proof. split; [lia | apply (onStepTabClick_moves_iff None 1 3); lia]. Defined.

Lemma visit_stays_on_steps_witness :
  let connected := Some (mkData (Some (mkExternalServices (Some ["github"%string])))) in
  let actions := [(None, ClickTab 3); (connected, ClickTab 2);
                  (connected, ClickContinue); (None, ClickContinue)] in
  tabs_between 1 3 actions ∧
  match visit (OnStep 1) actions with
  | OnStep c => 1 ≤ c ≤ 3 ∧ is_Some (currentStep None c)
  | ReturnedTo => ∃ data, (data, ClickNotNow) ∈ actions
  end.
Proof.
  cbv zeta.
  assert (Htabs : tabs_between 1 3
            [(None, ClickTab 3);
             (Some (mkData (Some (mkExternalServices (Some ["github"%string])))), ClickTab 2);
             (Some (mkData (Some (mkExternalServices (Some ["github"%string])))), ClickContinue);
             (None, ClickContinue)]).
  { intros data n Hin. rewrite !elem_of_cons, elem_of_nil in Hin.
    destruct Hin as [Hin | [Hin | [Hin | [Hin | []]]]]; inversion Hin; lia. }
  split; [exact Htabs | exact (visit_stays_on_steps _ Htabs)].
Defined.

End PostSignUpExamples.

(** ** The dashboard select *)

Section DashboardFacts.
Import DashboardSelect.

Lemma first_appearances_snoc (ks : list string) (k : string) :
  first_appearances (ks ++ [k]) =
  if decide (k ∈ first_appearances ks) then first_appearances ks
  else first_appearances ks ++ [k].
Proof. unfold first_appearances. by rewrite foldl_app. Qed.

Lemma elem_of_first_appearances (ks : list string) (k : string) :
  k ∈ first_appearances ks ↔ k ∈ ks.
Proof.
  induction ks as [|x ks IH] using rev_ind; [done|].
  rewrite first_appearances_snoc, elem_of_app, list_elem_of_singleton.
  destruct (decide (x ∈ first_appearances ks)) as [Hx|Hx].
  - rewrite IH. split; [by left|]. intros [?| ->]; [done | by apply IH].
  - by rewrite elem_of_app, list_elem_of_singleton, IH.
Qed.

Lemma NoDup_first_appearances (ks : list string) : NoDup (first_appearances ks).
Proof.
  induction ks as [|x ks IH] using rev_ind; [constructor|].
  rewrite first_appearances_snoc. destruct (decide _) as [Hx|Hx]; [done|].
  apply NoDup_app. split; [done|]. split; [|apply NoDup_singleton].
  by intros y Hy ->%list_elem_of_singleton.
Qed.

Lemma own_fmap (G : string → DashboardOrganizationGroup) (keys : list string)
    (key : string) :
  own ((λ k, (k, G k)) <$> keys) key =
  if decide (key ∈ keys) then Some (G key) else None.
Proof.
  induction keys as [|k keys IH]; [done|]. cbn [fmap list_fmap own].
  destruct (decide (k = key)) as [->|Hne].
  - rewrite decide_True; [done | by left].
  - change (list_fmap _ _ ?f keys) with (f <$> keys). rewrite IH.
    destruct (decide (key ∈ keys)) as [Hin|Hout].
    + rewrite decide_True; [done | by right].
    + rewrite decide_False; [done|]. by intros [?|?]%elem_of_cons.
Qed.

Lemma push_fmap (G : string → DashboardOrganizationGroup) (keys : list string)
    (key : string) (d : InsightDashboard) :
  NoDup keys →
  push ((λ k, (k, G k)) <$> keys) key d =
  (λ k, (k, if decide (k = key)
            then mkGroup (group_id (G k)) (group_name (G k)) (dashboards (G k) ++ [d])
            else G k)) <$> keys.
Proof.
  induction keys as [|k keys IH]; intros Hnd; [done|].
  apply NoDup_cons in Hnd as [Hk Hnd]. cbn [fmap list_fmap push].
  destruct (decide (k = key)) as [->|Hne].
  - f_equal. apply list_fmap_ext. intros i k Hi.
    rewrite decide_False; [done|]. intros ->. apply Hk.
    by eapply list_elem_of_lookup_2.
  - f_equal. by apply IH.
Qed.

Lemma members_snoc (key : string) (l : list InsightDashboard) (d : InsightDashboard) :
  members key (l ++ [d]) =
  members key l ++ (if decide (owner_id (owner d) = key) then [d] else []).
Proof.
  unfold members. rewrite filter_app. by f_equal.
Qed.

Lemma members_nil (key : string) (l : list InsightDashboard) :
  key ∉ owners l → members key l = [].
Proof.
  unfold owners. rewrite elem_of_first_appearances. intros Hout.
  destruct (members key l) as [|d rest] eqn:Hm; [done|].
  assert (d ∈ members key l) as [Hkey Hd]%list_elem_of_filter
    by (rewrite Hm; by left).
  destruct Hout. apply list_elem_of_fmap. by exists d.
Qed.

Lemma members_cons (key : string) (l : list InsightDashboard) :
  key ∈ owners l → ∃ d rest, members key l = d :: rest.
Proof.
  unfold owners. rewrite elem_of_first_appearances.
  intros (d & Hkey & Hd)%list_elem_of_fmap.
  destruct (members key l) as [|d' rest] eqn:Hm; [|by eexists _, _].
  assert (d ∈ members key l) as Hin by by apply list_elem_of_filter.
  rewrite Hm in Hin. by apply elem_of_nil in Hin.
Qed.

Lemma owners_snoc (l : list InsightDashboard) (d : InsightDashboard) :
  owners (l ++ [d]) =
  if decide (owner_id (owner d) ∈ owners l) then owners l
  else owners l ++ [owner_id (owner d)].
Proof. unfold owners. by rewrite fmap_snoc, first_appearances_snoc. Qed.

(** One more dashboard, of an owner that is no property of the
    prototype, leads from the store of [l] to the store of [l ++ [d]]. *)
Lemma reducer_grouped (l : list InsightDashboard) (d : InsightDashboard) :
  owner_id (owner d) ∉ Object_prototype →
  reducer (grouped l) d = inr (grouped (l ++ [d])).
Proof.
  intros Hproto. unfold reducer, get, grouped at 1.
  rewrite own_fmap. unfold grouped. rewrite owners_snoc.
  destruct (decide (owner_id (owner d) ∈ owners l)) as [Hin|Hout].
  - f_equal. fold (grouped l). unfold grouped.
    rewrite push_fmap by apply NoDup_first_appearances.
    apply list_fmap_ext. intros i k Hk. f_equal.
    unfold group_of. rewrite members_snoc. cbn [group_id group_name dashboards].
    destruct (decide (k = owner_id (owner d))) as [->|Hne].
    + rewrite decide_True by done.
      destruct (members_cons _ _ Hin) as (d0 & rest & ->). done.
    + rewrite decide_False by done. by rewrite app_nil_r.
  - rewrite decide_False by done. f_equal. rewrite fmap_app. f_equal.
    + apply list_fmap_ext. intros i k Hk. f_equal.
      unfold group_of. rewrite members_snoc.
      rewrite decide_False; [by rewrite app_nil_r|].
      intros <-. apply Hout. by eapply list_elem_of_lookup_2.
    + cbn [fmap list_fmap]. do 2 f_equal.
      unfold group_of. rewrite members_snoc, (members_nil _ _ Hout).
      by rewrite decide_True.
Qed.

Lemma reduce_inl (l : list InsightDashboard) (e : TypeError) :
  foldl (λ acc d, match acc with inl e => inl e | inr st => reducer st d end)
        (inl e) l = inl e.
Proof. by induction l. Qed.

Lemma reduce_grouped (l : list InsightDashboard) :
  Forall (λ d, owner_id (owner d) ∉ Object_prototype) l →
  reduce l [] = inr (grouped l).
Proof.
  induction l as [|d l IH] using rev_ind; intros Hall; [done|].
  apply Forall_app in Hall as [Hl Hd]. apply Forall_inv in Hd.
  unfold reduce in *. rewrite foldl_app, (IH Hl). cbn [foldl]. cbv beta iota.
  by apply reducer_grouped.
Qed.

(** The first dashboard whose owner is a property of the prototype stops
    the reduction. *)
Lemma reduce_TypeError (l : list InsightDashboard) :
  Exists (λ d, owner_id (owner d) ∈ Object_prototype) l →
  reduce l [] = inl cannot_read_push_of_undefined.
Proof.
  intros Hex.
  assert (∃ l1 d l2, l = l1 ++ d :: l2 ∧
            Forall (λ d, owner_id (owner d) ∉ Object_prototype) l1 ∧
            owner_id (owner d) ∈ Object_prototype) as (l1 & d & l2 & -> & Hl1 & Hd).
  { induction Hex as [d l Hd|d l Hex IH].
    - by exists [], d, l.
    - destruct (decide (owner_id (owner d) ∈ Object_prototype)) as [Hd|Hd].
      + by exists [], d, l.
      + destruct IH as (l1 & d' & l2 & -> & Hl1 & Hd').
        exists (d :: l1), d', l2. split; [done|]. split; [by constructor | done]. }
  unfold reduce. rewrite foldl_app. fold (reduce l1 []).
  rewrite (reduce_grouped l1 Hl1). cbn [foldl]. cbv beta iota.
  assert (reducer (grouped l1) d = inl cannot_read_push_of_undefined) as ->.
  { unfold reducer, get, grouped. rewrite own_fmap.
    rewrite decide_False, decide_True; [done..|].
    unfold owners. rewrite elem_of_first_appearances.
    intros (d0 & Hkey & Hd0)%list_elem_of_fmap.
    eapply Forall_forall in Hl1; [|done]. apply Hl1. by rewrite <- Hkey. }
  apply reduce_inl.
Qed.

Lemma insert_by_index_Permutation {A : Type} (n : N) (x : A) (sorted : list (N * A)) :
  Permutation (insert_by_index n x sorted) ((n, x) :: sorted).
Proof.
  induction sorted as [|[m y] sorted IH]; [done|]. cbn [insert_by_index].
  destruct (decide (n ≤ m)%N); [done|].
  rewrite IH. apply Permutation_swap.
Qed.

Lemma Object_values_Permutation (store : Store) :
  Permutation (Object_values store) (snd <$> store).
Proof.
  unfold Object_values, named, Store.
  induction store as [|[k g] store IH]; [done|].
  cbn [indexed]. rewrite filter_cons. cbn [fst].
  destruct (array_index k) as [n|] eqn:Hk.
  - rewrite decide_False by done. rewrite insert_by_index_Permutation.
    cbn [fmap list_fmap snd app]. by constructor.
  - rewrite decide_True by done. cbn [fmap list_fmap snd].
    rewrite <- Permutation_middle. by constructor.
Qed.

Lemma insert_by_index_fmap {A B : Type} (f : A → B) (n : N) (x : A)
    (sorted : list (N * A)) :
  prod_map (λ k, k) f <$> insert_by_index n x sorted =
  insert_by_index n (f x) (prod_map (λ k, k) f <$> sorted).
Proof.
  induction sorted as [|[m y] sorted IH]; [done|].
  cbn [insert_by_index fmap list_fmap prod_map fst snd].
  destruct (decide (n ≤ m)%N); [done|].
  cbn [fmap list_fmap prod_map fst snd]. f_equal. apply IH.
Qed.

Lemma indexed_fmap {A B : Type} (f : A → B) (entries : list (string * A)) :
  indexed (prod_map (λ k, k) f <$> entries) = prod_map (λ k, k) f <$> indexed entries.
Proof.
  induction entries as [|[k x] entries IH]; [done|].
  cbn [fmap list_fmap prod_map fst snd id indexed].
  destruct (array_index k); [|apply IH].
  rewrite insert_by_index_fmap. f_equal. apply IH.
Qed.

Lemma grouped_keys (l : list InsightDashboard) :
  grouped l = prod_map (λ k, k) (group_of l) <$> ((λ k, (k, k)) <$> owners l).
Proof. unfold grouped. rewrite <- list_fmap_compose. by apply list_fmap_ext. Qed.

(** Adding [d] to the members of its owner adds it once to all members
    together. *)
Lemma concat_members_add (M : string → list InsightDashboard)
    (d : InsightDashboard) (key : string) (keys : list string) :
  NoDup keys →
  Permutation
    (concat ((λ k, M k ++ (if decide (key = k) then [d] else [])) <$> keys))
    (concat (M <$> keys) ++ (if decide (key ∈ keys) then [d] else [])).
Proof.
  induction keys as [|k keys IH]; intros Hnd; [done|].
  apply NoDup_cons in Hnd as [Hk Hnd]. cbn [fmap list_fmap concat].
  rewrite (IH Hnd). destruct (decide (key = k)) as [->|Hne].
  - rewrite decide_False by done. rewrite (decide_True (P := k ∈ k :: keys)) by by left.
    rewrite app_nil_r, <- !app_assoc. apply Permutation_app_head, Permutation_app_comm.
  - rewrite app_nil_r, <- app_assoc. apply Permutation_app_head, Permutation_app_head.
    destruct (decide (key ∈ keys)) as [Hin|Hout].
    + rewrite decide_True; [done | by right].
    + rewrite decide_False; [done|]. by intros [?|?]%elem_of_cons.
Qed.

Lemma concat_members (l : list InsightDashboard) :
  Permutation (concat ((λ k, members k l) <$> owners l)) l.
Proof.
  induction l as [|d l IH] using rev_ind; [done|].
  rewrite owners_snoc.
  pose proof (concat_members_add (λ k, members k l) d (owner_id (owner d))
                (owners l) (NoDup_first_appearances _)) as Hadd.
  cbv beta in Hadd.
  assert (Hext : ∀ keys : list string, (λ k, members k (l ++ [d])) <$> keys =
            (λ k, members k l ++
                  (if decide (owner_id (owner d) = k) then [d] else [])) <$> keys).
  { intros keys. apply list_fmap_ext. intros i k _. apply members_snoc. }
  destruct (decide (owner_id (owner d) ∈ owners l)) as [Hin|Hout].
  - rewrite Hext, Hadd. by rewrite IH.
  - rewrite fmap_app, concat_app, Hext, Hadd, app_nil_r, IH.
    cbn [fmap list_fmap concat]. rewrite app_nil_r, members_snoc.
    rewrite (members_nil _ _ Hout). by rewrite decide_True.
Qed.

(** The groups of [ds] when no owner is a property of the prototype. *)
Lemma groups_Object_values (ds : list InsightDashboard) :
  Forall (λ d, owner_id (owner d) ∉ Object_prototype) (organization ds) →
  getDashboardOrganizationsGroups ds =
    inr (Object_values (grouped (organization ds))).
Proof.
  intros Hall. unfold getDashboardOrganizationsGroups.
  fold (organization ds). by rewrite reduce_grouped.
Qed.

(** X17.  When no organization dashboard has an owner ID that names a
    property of [Object.prototype], [getDashboardOrganizationsGroups]
    returns one group for every owner of an organization dashboard and no
    other group; the group of an owner carries the owner's ID, the owner's
    name as the first of its dashboards gives it, and all the organization
    dashboards of that owner in the order of the input. *)
Theorem groups_by_owner (ds : list InsightDashboard) :
  Forall (λ d, owner_id (owner d) ∉ Object_prototype) (organization ds) →
  ∃ groups,
    getDashboardOrganizationsGroups ds = inr groups ∧
    NoDup (group_id <$> groups) ∧
    ∀ g, g ∈ groups ↔
         ∃ key, key ∈ (λ d, owner_id (owner d)) <$> organization ds ∧
                g = group_of (organization ds) key.
Proof.
  intros Hall. eexists. split; [by apply groups_Object_values|].
  set (l := organization ds).
  assert (Hperm : Permutation (Object_values (grouped l)) (group_of l <$> owners l)).
  { rewrite Object_values_Permutation. unfold grouped.
    rewrite <- list_fmap_compose. done. }
  split.
  - rewrite Hperm, <- list_fmap_compose.
    assert (group_id ∘ group_of l <$> owners l = owners l) as ->.
    { rewrite <- (list_fmap_id (owners l)) at 2. by apply list_fmap_ext. }
    apply NoDup_first_appearances.
  - intros g. rewrite Hperm, list_elem_of_fmap. unfold owners.
    split.
    + intros (key & -> & Hkey). exists key.
      split; [by apply elem_of_first_appearances | done].
    + intros (key & Hkey & ->). exists key.
      split; [done | by apply elem_of_first_appearances].
Qed.

(** X18.  Under the same condition the groups partition the organization
    dashboards: taken together, the dashboards of the groups are the
    organization dashboards of the input, each as often as the input has
    it; a personal dashboard is in no group. *)
Theorem groups_partition (ds : list InsightDashboard) :
  Forall (λ d, owner_id (owner d) ∉ Object_prototype) (organization ds) →
  ∃ groups,
    getDashboardOrganizationsGroups ds = inr groups ∧
    Permutation (concat (dashboards <$> groups)) (organization ds) ∧
    ∀ g d, g ∈ groups → d ∈ dashboards g →
           type d = Organization ∧ owner_id (owner d) = group_id g.
Proof.
  intros Hall. eexists. split; [by apply groups_Object_values|].
  set (l := organization ds).
  assert (Hperm : Permutation (Object_values (grouped l)) (group_of l <$> owners l)).
  { rewrite Object_values_Permutation. unfold grouped.
    rewrite <- list_fmap_compose. done. }
  split.
  - rewrite Hperm, <- list_fmap_compose. apply concat_members.
  - intros g d Hg Hd. rewrite Hperm in Hg.
    apply list_elem_of_fmap in Hg as (key & -> & Hkey). cbn in Hd |- *.
    apply list_elem_of_filter in Hd as [Hd Hin]. split; [|done].
    subst l. unfold organization in Hin. by apply list_elem_of_filter in Hin as [? _].
Qed.

(** X19.  [getDashboardOrganizationsGroups] throws a [TypeError] exactly
    when some organization dashboard has an owner ID that names a property
    of [Object.prototype], such as [constructor] or [toString]: the store
    then has a value under that key that is no group. *)
Theorem groups_TypeError (ds : list InsightDashboard) :
  getDashboardOrganizationsGroups ds = inl cannot_read_push_of_undefined ↔
  ∃ d, d ∈ ds ∧ type d = Organization ∧ owner_id (owner d) ∈ Object_prototype.
Proof.
  split.
  - intros Herr.
    destruct (decide (Exists (λ d, owner_id (owner d) ∈ Object_prototype)
                        (organization ds))) as [Hex|Hno].
    + apply Exists_exists in Hex as (d & Hd & Hproto).
      unfold organization in Hd.
      apply list_elem_of_filter in Hd as [Htype Hd]. by exists d.
    + apply not_Exists_Forall in Hno; [|intros d; apply _].
      by rewrite groups_Object_values in Herr.
  - intros (d & Hd & Htype & Hproto).
    unfold getDashboardOrganizationsGroups. fold (organization ds).
    rewrite reduce_TypeError; [done|].
    apply Exists_exists. exists d. split; [|done].
    unfold organization. apply list_elem_of_filter. done.
Qed.

(** X20.  The groups come in the order of [Object.values]: first the
    owners whose ID is an array index, in ascending order of the index,
    then the other owners in the order in which they first appear among
    the organization dashboards.  When no owner ID is an array index, the
    groups are in the order of first appearance. *)
Theorem groups_order (ds : list InsightDashboard) :
  Forall (λ d, owner_id (owner d) ∉ Object_prototype) (organization ds) →
  let keys := owners (organization ds) in
  ∃ groups,
    getDashboardOrganizationsGroups ds = inr groups ∧
    group_id <$> groups =
      (snd <$> indexed ((λ k, (k, k)) <$> keys)) ++
      filter (λ k, array_index k = None) keys ∧
    (Forall (λ k, array_index k = None) keys → group_id <$> groups = keys).
Proof.
  intros Hall keys. eexists. split; [by apply groups_Object_values|].
  set (l := organization ds) in *.
  assert (Hids : group_id <$> Object_values (grouped l) =
            (snd <$> indexed ((λ k, (k, k)) <$> keys)) ++
            filter (λ k, array_index k = None) keys).
  { unfold Object_values. rewrite fmap_app. f_equal.
    - rewrite grouped_keys, indexed_fmap, <- !list_fmap_compose.
      apply list_fmap_ext. by intros i [n k] _.
    - unfold named, grouped, Store. fold keys. clear Hall.
      induction keys as [|k keys' IH]; [done|].
      cbn [fmap list_fmap]. rewrite !filter_cons. cbn [fst].
      destruct (decide (array_index k = None)); cbn [fmap list_fmap snd group_id group_of];
        by rewrite <- IH. }
  split; [done|]. intros Hnone. rewrite Hids.
  assert (Hidx : indexed ((λ k, (k, k)) <$> keys) = []).
  { clear Hids. induction Hnone as [|k keys' Hk _ IH]; [done|].
    cbn [fmap list_fmap indexed]. by rewrite Hk. }
  rewrite Hidx. cbn [fmap list_fmap app].
  clear Hidx Hids. induction Hnone as [|k keys' Hk _ IH]; [done|].
  rewrite filter_cons, decide_True by done. by f_equal.
Qed.

End DashboardFacts.

(** *** On the example dashboards *)

Section DashboardExamples.
Import DashboardSelect.

Lemma example_dashboards_fine :
  Forall (λ d, owner_id (owner d) ∉ Object_prototype) (organization example_dashboards).
Proof. apply (bool_decide_unpack _). vm_compute. exact I. Defined.

Lemma groups_by_owner_witness :
  ∃ groups,
    getDashboardOrganizationsGroups example_dashboards = inr groups ∧
    NoDup (group_id <$> groups) ∧
    ∀ g, g ∈ groups ↔
         ∃ key, key ∈ (λ d, owner_id (owner d)) <$> organization example_dashboards ∧
                g = group_of (organization example_dashboards) key.
Proof. exact (groups_by_owner example_dashboards example_dashboards_fine). Defined.

Lemma groups_partition_witness :
  ∃ groups,
    getDashboardOrganizationsGroups example_dashboards = inr groups ∧
    Permutation (concat (dashboards <$> groups)) (organization example_dashboards) ∧
    ∀ g d, g ∈ groups → d ∈ dashboards g →
           type d = Organization ∧ owner_id (owner d) = group_id g.
Proof. exact (groups_partition example_dashboards example_dashboards_fine). Defined.

Lemma groups_order_witness :
  ∃ groups,
    getDashboardOrganizationsGroups example_dashboards = inr groups ∧
    group_id <$> groups = ["2"; "10"; "acme"]%string.
Proof.
  destruct (groups_order example_dashboards example_dashboards_fine)
    as (groups & Hgroups & Hids & _).
  exists groups. split; [exact Hgroups | exact Hids].
Defined.

End DashboardExamples.
